(** * Bellman-Ford on a networkx [DiGraph]: model of [src/belman.py]

    The development embeds the algorithmic core of [BellmanFordApp]:
    [read_graph_from_excel] (rows of a sheet fed to [DiGraph.add_edge]),
    [bellman_ford] (relaxation rounds, negative-cycle check, path
    reconstruction), the decisions of [run_bellman_ford] (which message box
    a query ends in) and the list of edges that [draw_graph] highlights.
    Reading the file, the widgets and the drawing itself are left out.

    Modelling choices.
    - Node identifiers are strings.
    - Weights are exact integers ([Z]); a distance is either a finite
      integer or Python's [float("inf")], with the arithmetic and the
      comparison of the sentinel written out ([dadd], [dlt]).
    - networkx is a library the program imports; its [DiGraph] is modelled
      as the insertion-ordered dict of dicts [_succ] that it keeps: an
      association list from a node to the association list of its
      successors.  [graph.nodes] iterates the outer keys, and
      [graph.edges(data=True)] iterates the outer dict and then each inner
      dict, both in insertion order.  [add_edge] on an edge that is already
      there overwrites its weight: a [DiGraph] holds one edge per ordered
      pair.
    - The Python dicts [distances], [predecessors] and [paths] are [gmap]s;
      a subscript on a missing key raises [KeyError].
    - The [while current is not None] loop runs on fuel; running out of
      fuel is the outcome [OutOfFuel]. *)

From Stdlib Require Import ZArith Lia.
From stdpp Require Import base option list strings gmap.

Open Scope Z_scope.

(** ** Outcomes of Python code *)

Inductive exn := ValueError | KeyError.

Inductive outcome (A : Type) :=
| Ok (a : A)
| Raise (e : exn)
| OutOfFuel.
Arguments Ok {A} a.
Arguments Raise {A} e.
Arguments OutOfFuel {A}.

Definition obind {A B} (m : outcome A) (f : A → outcome B) : outcome B :=
  match m with
  | Ok a => f a
  | Raise e => Raise e
  | OutOfFuel => OutOfFuel
  end.

#[global] Instance outcome_bind : MBind outcome := fun A B f m => obind m f.

(** [for e in l: s = body(s, e)], stopping at the first exception. *)
Fixpoint for_each {S E} (body : S → E → outcome S) (l : list E) (s : S)
  : outcome S :=
  match l with
  | [] => Ok s
  | e :: r => s' ← body s e; for_each body r s'
  end.

(** [d[k]] on a Python dict. *)
Definition getitem {V} (d : gmap string V) (k : string) : outcome V :=
  match d !! k with
  | Some x => Ok x
  | None => Raise KeyError
  end.

(** ** Distances: finite numbers and [float("inf")] *)

Inductive dist := Fin (z : Z) | Inf.

(** [d + weight] *)
Definition dadd (d : dist) (w : Z) : dist :=
  match d with
  | Fin z => Fin (z + w)
  | Inf => Inf
  end.

(** [a < b] *)
Definition dlt (a b : dist) : bool :=
  match a, b with
  | Fin x, Fin y => bool_decide (x < y)
  | Fin _, Inf => true
  | Inf, _ => false
  end.

(** [d != float("inf")] *)
Definition is_finite (d : dist) : bool :=
  match d with
  | Fin _ => true
  | Inf => false
  end.

(** ** The graph: networkx [DiGraph] *)

Abbreviation adjdict := (list (string * Z)).
Abbreviation DiGraph := (list (string * adjdict)).

Abbreviation edge := (string * string * Z)%type.

(** [nx.DiGraph()] *)
Definition empty_graph : DiGraph := [].

(** [graph.nodes] *)
Definition nodes (g : DiGraph) : list string := g.*1.

(** [graph.edges(data=True)], each triple carrying [data["weight"]]. *)
Definition edges (g : DiGraph) : list edge :=
  flat_map (fun '(u, nbrs) => map (fun '(v, w) => (u, v, w)) nbrs) g.

(** [d[k] = x] on an insertion-ordered dict: an existing key keeps its
    position, a new key goes last. *)
Fixpoint dict_set {V} (k : string) (x : V) (d : list (string * V))
  : list (string * V) :=
  match d with
  | [] => [(k, x)]
  | (k', y) :: r =>
      if decide (k = k') then (k', x) :: r else (k', y) :: dict_set k x r
  end.

(** [d[k] = f(d[k])] for a key that is present. *)
Fixpoint dict_alter {V} (f : V → V) (k : string) (d : list (string * V))
  : list (string * V) :=
  match d with
  | [] => []
  | (k', y) :: r =>
      if decide (k = k') then (k', f y) :: r else (k', y) :: dict_alter f k r
  end.

(** The node part of [add_edge]: [if n not in self._succ: self._succ[n] = {}] *)
Definition add_node (n : string) (g : DiGraph) : DiGraph :=
  if decide (n ∈ nodes g) then g else g ++ [(n, [])].

(** [graph.add_edge(u, v, weight=w)]: both endpoints become nodes, then
    [self._succ[u][v]] is set, overwriting the weight of an edge that is
    already there. *)
Definition add_edge (u v : string) (w : Z) (g : DiGraph) : DiGraph :=
  dict_alter (dict_set v w) u (add_node v (add_node u g)).

(** [read_graph_from_excel], from the rows [(Source, Target, Weight)] of the
    sheet; [add_row] is the body of its loop. *)
Definition add_row (graph : DiGraph) (row : edge) : DiGraph :=
  let '(source, target, weight) := row in add_edge source target weight graph.

Definition read_graph_from_excel (rows : list edge) : DiGraph :=
  fold_left add_row rows empty_graph.

(** ** [bellman_ford] *)

Abbreviation state := (gmap string dist * gmap string (option string))%type.

(** [{node: x for node in graph.nodes}] *)
Definition dict_from_keys {V} (ks : list string) (x : V) : gmap string V :=
  foldr (fun k m => <[k := x]> m) ∅ ks.

(** Body of the relaxation loop, lines 117-120. *)
Definition relax_edge (st : state) (e : edge) : outcome state :=
  let '(distances, predecessors) := st in
  let '(u, v, weight) := e in
  du ← getitem distances u;
  dv ← getitem distances v;
  if dlt (dadd du weight) dv
  then Ok (<[v := dadd du weight]> distances, <[v := Some u]> predecessors)
  else Ok st.

(** One [for u, v, data in graph.edges(data=True)] sweep. *)
Definition relax_round (graph : DiGraph) (st : state) : outcome state :=
  for_each relax_edge (edges graph) st.

(** [for _ in range(k)] around the sweep. *)
Fixpoint relax_rounds (k : nat) (graph : DiGraph) (st : state)
  : outcome state :=
  match k with
  | O => Ok st
  | S k' => st' ← relax_round graph st; relax_rounds k' graph st'
  end.

(** Body of the check loop, lines 124-126. *)
Definition check_edge (distances : gmap string dist) (_ : unit) (e : edge)
  : outcome unit :=
  let '(u, v, weight) := e in
  du ← getitem distances u;
  dv ← getitem distances v;
  if dlt (dadd du weight) dv then Raise ValueError else Ok tt.

Definition check_negative_cycle (graph : DiGraph) (distances : gmap string dist)
  : outcome unit :=
  for_each (check_edge distances) (edges graph) tt.

(** The [while current is not None] loop, lines 133-135. *)
Fixpoint walk_predecessors (fuel : nat) (predecessors : gmap string (option string))
    (current : option string) (path : list string) : outcome (list string) :=
  match current with
  | None => Ok path
  | Some c =>
      match fuel with
      | O => OutOfFuel
      | S fuel' =>
          nxt ← getitem predecessors c;
          walk_predecessors fuel' predecessors nxt (c :: path)
      end
  end.

(** Body of the reconstruction loop, lines 131-137. *)
Definition construct_path (fuel : nat) (distances : gmap string dist)
    (predecessors : gmap string (option string))
    (paths : gmap string (list string)) (node : string)
  : outcome (gmap string (list string)) :=
  path ← walk_predecessors fuel predecessors (Some node) [];
  dn ← getitem distances node;
  if is_finite dn then Ok (<[node := path]> paths) else Ok paths.

Definition initial_state (graph : DiGraph) (source : string) : state :=
  (<[source := Fin 0]> (dict_from_keys (nodes graph) Inf),
   dict_from_keys (nodes graph) None).

Definition bellman_ford (fuel : nat) (graph : DiGraph) (source : string)
  : outcome (gmap string dist * gmap string (list string)) :=
  st ← relax_rounds (length (nodes graph) - 1) graph (initial_state graph source);
  _ ← check_negative_cycle graph st.1;
  paths ← for_each (construct_path fuel st.1 st.2) (nodes graph) ∅;
  Ok (st.1, paths).

(** ** Graph vocabulary of the specification *)

(** What [DiGraph] guarantees of its own structure: node keys are unique,
    the successor keys of a node are unique, and every successor is a node. *)
Definition wf_graph (g : DiGraph) : Prop :=
  NoDup (nodes g) ∧
  Forall (fun un => NoDup un.2.*1 ∧ Forall (fun v => v ∈ nodes g) un.2.*1) g.

#[global] Instance wf_graph_dec g : Decision (wf_graph g).
Proof. unfold wf_graph. apply _. Defined.

(** [es] is a chain of edges of [g] leading from [a] to [b]; a node may
    come more than once. *)
Fixpoint is_walk (g : DiGraph) (a : string) (es : list edge) (b : string)
  : Prop :=
  match es with
  | [] => a = b
  | (u, v, w) :: r => u = a ∧ (u, v, w) ∈ edges g ∧ is_walk g v r b
  end.

(** Total edge weight of a chain of edges. *)
Definition weight (es : list edge) : Z := foldr (fun e acc => e.2 + acc) 0 es.

Definition reachable (g : DiGraph) (s n : string) : Prop :=
  ∃ es, is_walk g s es n.

(** [m] is the minimum total edge weight over all paths from [s] to [n]. *)
Definition min_path_weight (g : DiGraph) (s n : string) (m : Z) : Prop :=
  (∃ es, is_walk g s es n ∧ weight es = m) ∧
  (∀ es, is_walk g s es n → m ≤ weight es).

(** A cycle of negative total weight through [c]. *)
Definition negative_cycle_at (g : DiGraph) (c : string) : Prop :=
  ∃ es, is_walk g c es c ∧ weight es < 0.

Definition negative_cycle_reachable (g : DiGraph) (s : string) : Prop :=
  ∃ c, reachable g s c ∧ negative_cycle_at g c.

(** The path [l] is made of edges of the graph. *)
Definition edges_connect (g : DiGraph) (l : list string) : Prop :=
  ∀ i x y, l !! i = Some x → l !! S i = Some y → ∃ w, (x, y, w) ∈ edges g.

(** An edge that the verification pass would still relax. *)
Definition improving (distances : gmap string dist) (e : edge) : Prop :=
  ∃ du dv, distances !! e.1.1 = Some du ∧ distances !! e.1.2 = Some dv ∧
           dlt (dadd du e.2) dv = true.

(** Reading of distances with [inf] for a missing key, and the order on
    distances; both are proof devices. *)
Definition dval (d : gmap string dist) (n : string) : dist :=
  default Inf (d !! n).

Definition dle (a b : dist) : Prop :=
  match a, b with
  | _, Inf => True
  | Fin x, Fin y => x ≤ y
  | Inf, Fin _ => False
  end.

(** ** Proof vocabulary *)



(** Following predecessor links from [a] leads to [b]. *)
Inductive pred_chain (p : gmap string (option string)) : string → string → Prop :=
| pred_chain_refl a : pred_chain p a a
| pred_chain_step a b c :
    p !! a = Some (Some b) → pred_chain p b c → pred_chain p a c.

(** No node is its own ancestor. *)
Definition acyclic (p : gmap string (option string)) : Prop :=
  ∀ a b, p !! a = Some (Some b) → ¬ pred_chain p b a.

(** [l] is the list of nodes from a root of the predecessor links down to
    [c]. *)
Inductive pred_path (p : gmap string (option string)) : list string → string → Prop :=
| pred_path_root c : p !! c = Some None → pred_path p [c] c
| pred_path_step l b c :
    p !! c = Some (Some b) → pred_path p l b → pred_path p (l ++ [c]) c.

(** What holds of [distances] and [predecessors] at every point of the
    relaxation. *)
Record inv (g : DiGraph) (s : string) (st : state) : Prop := {
  inv_dkeys : ∀ n, n ∈ nodes g → is_Some (st.1 !! n);
  inv_pkeys : ∀ n, n ∈ nodes g → is_Some (st.2 !! n);
  inv_source : ∃ x, st.1 !! s = Some (Fin x) ∧ x ≤ 0;
  inv_walk : ∀ v x, st.1 !! v = Some (Fin x) →
    ∃ es, is_walk g s es v ∧ weight es = x;
  inv_pred : ∀ v u, st.2 !! v = Some (Some u) →
    ∃ w x y, (u, v, w) ∈ edges g ∧ st.1 !! u = Some (Fin x) ∧
             st.1 !! v = Some (Fin y) ∧ x + w ≤ y;
  inv_root : ∀ v, st.2 !! v = Some None →
    st.1 !! v = Some Inf ∨ (v = s ∧ st.1 !! v = Some (Fin 0));
  inv_spred : ∀ u, st.2 !! s = Some (Some u) →
    ∃ x, st.1 !! s = Some (Fin x) ∧ x < 0;
}.

(** Distances only go down. *)
Definition mono (st st' : state) : Prop :=
  ∀ n, dle (dval st'.1 n) (dval st.1 n).

(** No edge can be relaxed any further. *)
Definition feasible (g : DiGraph) (d : gmap string dist) : Prop :=
  ∀ u v w, (u, v, w) ∈ edges g → dle (dval d v) (dadd (dval d u) w).

(** After [k] rounds no distance exceeds the weight of a walk of at most
    [k] edges. *)
Definition bounded (g : DiGraph) (s : string) (k : nat) (d : gmap string dist)
  : Prop :=
  ∀ es v, is_walk g s es v → (length es ≤ k)%nat →
          dle (dval d v) (Fin (weight es)).

(** ** Duplicate rows *)

(** Weights of the rows that join [u] to [v], in the order of the sheet. *)
Definition weights_of (rows : list edge) (u v : string) : list Z :=
  (fun e => e.2) <$> filter (fun e => e.1 = (u, v)) rows.

(** Weight of the last row that joins [u] to [v]. *)
Definition last_weight (rows : list edge) (u v : string) : option Z :=
  last (weights_of rows u v).

(** Least weight among the rows that join [u] to [v]. *)
Definition min_weight (rows : list edge) (u v : string) : option Z :=
  match weights_of rows u v with
  | [] => None
  | w :: ws => Some (foldr Z.min w ws)
  end.





(** [d.get(k)] on an insertion-ordered dict. *)
Fixpoint dict_get {V} (k : string) (d : list (string * V)) : option V :=
  match d with
  | [] => None
  | (k', y) :: r => if decide (k = k') then Some y else dict_get k r
  end.



(** ** [run_bellman_ford] and [draw_graph] *)

(** The message box that [run_bellman_ford] opens. *)
Inductive dialog :=
| ErrorNoGraph                 (* showerror: "No graph loaded! ..." *)
| ErrorNoSource                (* showerror: "Please select a source node!" *)
| ErrorNoDestination           (* showerror: "Please select a destination node!" *)
| ErrorException (e : exn)     (* showerror("Error", str(e)) of the handler *)
| Results (shortest_distance : dist) (shortest_path : list string)
                               (* showinfo, followed by [draw_graph] *)
| NoPath.                      (* showwarning: "No path exists ..." *)

(** The [try] block of [run_bellman_ford], lines 90-104. *)
Definition run_query (fuel : nat) (graph : DiGraph) (source destination : string)
  : outcome dialog :=
  r ← bellman_ford fuel graph source;
  let '(distances, paths) := r in
  if decide (is_Some (distances !! destination))
  then shortest_distance ← getitem distances destination;
       shortest_path ← getitem paths destination;
       Ok (Results shortest_distance shortest_path)
  else Ok NoPath.

(** [run_bellman_ford], on the graph held by the application ([None] before
    any load) and the two selections.  [not self.graph] is true for [None]
    and for a graph without nodes; [except Exception] turns whatever the
    block raises into an error box. *)
Definition run_bellman_ford (fuel : nat) (graph : option DiGraph)
    (source destination : string) : outcome dialog :=
  match graph with
  | None => Ok ErrorNoGraph
  | Some g =>
      if decide (nodes g = []) then Ok ErrorNoGraph
      else if decide (source = EmptyString) then Ok ErrorNoSource
      else if decide (destination = EmptyString) then Ok ErrorNoDestination
      else match run_query fuel g source destination with
           | Ok d => Ok d
           | Raise e => Ok (ErrorException e)
           | OutOfFuel => OutOfFuel
           end
  end.

(** [list(zip(shortest_path, shortest_path[1:]))] of [draw_graph]. *)
Definition shortest_path_edges (shortest_path : list string)
  : list (string * string) :=
  zip shortest_path (tail shortest_path).

(** ** Vocabulary for the loader *)

(** The weight the graph holds for the edge from [u] to [v]: the entry of
    [nx.get_edge_attributes(graph, "weight")] that [draw_graph] prints as
    the label of the edge. *)
Definition edge_weight (g : DiGraph) (u v : string) : option Z :=
  nbrs ← dict_get u g; dict_get v nbrs.

(** The endpoints of the rows, in the order of the sheet. *)
Definition endpoints (rows : list edge) : list string :=
  flat_map (fun e => [e.1.1; e.1.2]) rows.

(** The elements of a list in the order of their first appearance. *)
Definition first_seen (l : list string) : list string :=
  fold_left (fun acc n => if decide (n ∈ acc) then acc else acc ++ [n]) l [].

(** The keys of the two dicts are those of the initial state. *)
Definition keys_exact (g : DiGraph) (s : string) (st : state) : Prop :=
  (∀ n, is_Some (st.1 !! n) → n ∈ nodes g ∨ n = s) ∧
  (∀ n, is_Some (st.2 !! n) → n ∈ nodes g).

(** ** Scenarios *)

Definition scenario1 : DiGraph :=
  read_graph_from_excel [("A", "B", 4); ("A", "C", 1); ("C", "B", 1)]%string.

Definition scenario2 : DiGraph :=
  read_graph_from_excel [("A", "B", 1); ("B", "C", -2); ("C", "B", -2)]%string.

(** [A -> B (5)] with the isolated node [C]. *)
Definition scenario3 : DiGraph :=
  [("A", [("B", 5)]); ("B", []); ("C", [])]%string.

(** The edge [A -> B] listed twice, first with weight [1], then [5]. *)
Definition duplicate_rows : list edge := [("A", "B", 1); ("A", "B", 5)]%string.

Definition scenario4 : DiGraph :=
  read_graph_from_excel [("A", "B", -1); ("B", "C", -1); ("A", "C", 5)]%string.


(** ** Generic facts: outcomes, loops, distances *)

(** Decides a closed decidable proposition by evaluation. *)
Ltac by_compute := apply (bool_decide_unpack _); vm_compute; exact I.

Lemma obind_ok {A B} (m : outcome A) (f : A → outcome B) b :
  (x ← m; f x) = Ok b → ∃ a, m = Ok a ∧ f a = Ok b.
Proof. destruct m; simpl; intros H; try discriminate. eauto. Qed.

Lemma for_each_app {S E} (f : S → E → outcome S) l1 l2 s :
  for_each f (l1 ++ l2) s = (s' ← for_each f l1 s; for_each f l2 s').
Proof.
  revert s. induction l1 as [|e l1 IH]; intros s; simpl; [done|].
  destruct (f s e); simpl; auto.
Qed.

(** A loop whose body keeps an invariant and never raises on it runs to
    completion and keeps the invariant. *)
Lemma for_each_inv {S E} (I : S → Prop) (f : S → E → outcome S) l s :
  I s →
  (∀ s e, e ∈ l → I s → ∃ s', f s e = Ok s' ∧ I s') →
  ∃ s', for_each f l s = Ok s' ∧ I s'.
Proof.
  revert s. induction l as [|e l IH]; intros s Hs Hf; simpl; [eauto|].
  destruct (Hf s e) as (s1 & -> & H1); [left | done |]. simpl.
  apply IH; [done|]. intros s2 e2 He2. apply Hf. by right.
Qed.

Lemma getitem_ok {V} (d : gmap string V) k x :
  d !! k = Some x → getitem d k = Ok x.
Proof. unfold getitem. intros H. by rewrite H. Qed.

Lemma lookup_dict_from_keys {V} ks (x : V) k :
  dict_from_keys ks x !! k = if decide (k ∈ ks) then Some x else None.
Proof.
  induction ks as [|a ks IH]; unfold dict_from_keys; cbn [foldr].
  - rewrite lookup_empty. case_decide as H; [|done]. by apply elem_of_nil in H.
  - fold (dict_from_keys ks x). rewrite lookup_insert.
    destruct (decide (a = k)) as [->|Hne].
    + rewrite decide_True; [done | left].
    + rewrite IH. destruct (decide (k ∈ ks)) as [Hin|Hnin].
      * rewrite decide_True; [done | by right].
      * rewrite decide_False; [done|]. intros [?|?]%elem_of_cons; congruence.
Qed.

Lemma dlt_true a b : dlt a b = true ↔ ¬ dle b a.
Proof.
  destruct a, b; simpl; rewrite ?bool_decide_eq_true; intuition (try lia; try done).
Qed.

Lemma dle_refl a : dle a a.
Proof. destruct a; simpl; [lia | done]. Qed.

Lemma dle_trans a b c : dle a b → dle b c → dle a c.
Proof. destruct a, b, c; simpl; intros; try done; lia. Qed.

Lemma dle_dadd a b w : dle a b → dle (dadd a w) (dadd b w).
Proof. destruct a, b; simpl; intros; try done; lia. Qed.

Lemma dval_some d n x : d !! n = Some x → dval d n = x.
Proof. unfold dval. intros H. by rewrite H. Qed.

Lemma dval_insert d k x n :
  dval (<[k := x]> d) n = if decide (k = n) then x else dval d n.
Proof. unfold dval. rewrite lookup_insert. by case_decide. Qed.

(** ** Edges and walks *)

Lemma elem_of_edges g u v w :
  (u, v, w) ∈ edges g ↔ ∃ nbrs, (u, nbrs) ∈ g ∧ (v, w) ∈ nbrs.
Proof.
  unfold edges. rewrite list_elem_of_In, in_flat_map. split.
  - intros ([u' nbrs] & Hin & He). apply in_map_iff in He as ([v' w'] & Heq & Hvw).
    simplify_eq. exists nbrs. by rewrite !list_elem_of_In.
  - intros (nbrs & Hin & Hvw). exists (u, nbrs). rewrite <- list_elem_of_In.
    split; [done|]. apply in_map_iff. exists (v, w).
    split; [done|]. by apply list_elem_of_In.
Qed.

Lemma edge_source_node g u v w : (u, v, w) ∈ edges g → u ∈ nodes g.
Proof.
  rewrite elem_of_edges. intros (nbrs & Hin & _).
  unfold nodes. apply list_elem_of_fmap. by exists (u, nbrs).
Qed.

Lemma edge_target_node g u v w :
  wf_graph g → (u, v, w) ∈ edges g → v ∈ nodes g.
Proof.
  intros [_ Hwf]. rewrite elem_of_edges. intros (nbrs & Hin & Hvw).
  rewrite Forall_forall in Hwf. destruct (Hwf _ Hin) as [_ Hall].
  rewrite Forall_forall in Hall. apply Hall. simpl.
  apply list_elem_of_fmap. by exists (v, w).
Qed.

Lemma weight_app es1 es2 : weight (es1 ++ es2) = weight es1 + weight es2.
Proof. induction es1 as [|e es1 IH]; simpl; [done|]. unfold weight in *. simpl. lia. Qed.

Lemma is_walk_app g a es1 b es2 c :
  is_walk g a es1 b → is_walk g b es2 c → is_walk g a (es1 ++ es2) c.
Proof.
  revert a. induction es1 as [|[[u v] w] es1 IH]; intros a; simpl.
  - by intros ->.
  - intros (-> & He & Hw) H2. eauto.
Qed.

Lemma is_walk_app_inv g a es1 es2 c :
  is_walk g a (es1 ++ es2) c → ∃ b, is_walk g a es1 b ∧ is_walk g b es2 c.
Proof.
  revert a. induction es1 as [|[[u v] w] es1 IH]; intros a; simpl.
  - eauto.
  - intros (-> & He & Hw). destruct (IH _ Hw) as (b & H1 & H2). eauto.
Qed.

Lemma is_walk_snoc g a es u v w :
  is_walk g a es u → (u, v, w) ∈ edges g → is_walk g a (es ++ [(u, v, w)]) v.
Proof. intros H He. eapply is_walk_app; [done|]. simpl. auto. Qed.





Lemma dlt_false a b : dlt a b = false ↔ dle b a.
Proof.
  destruct a, b; simpl; rewrite ?bool_decide_eq_false; intuition (try lia; try done).
Qed.

Lemma dle_inf a : dle a Inf.
Proof. by destruct a. Qed.

(** ** The relaxation loop *)

Section relaxation.
Variable g : DiGraph.
Variable s : string.
Hypothesis Hwf : wf_graph g.

Lemma mono_refl st : mono st st.
Proof. intros n. apply dle_refl. Qed.

Lemma mono_trans st1 st2 st3 : mono st1 st2 → mono st2 st3 → mono st1 st3.
Proof. intros H1 H2 n. eapply dle_trans; [apply H2 | apply H1]. Qed.

Lemma inv_initial : inv g s (initial_state g s).
Proof.
  unfold initial_state. split; simpl.
  - intros n Hn. rewrite lookup_insert. case_decide; [by eexists|].
    rewrite lookup_dict_from_keys, decide_True by done. by eexists.
  - intros n Hn. rewrite lookup_dict_from_keys, decide_True by done. by eexists.
  - exists 0. by rewrite lookup_insert_eq.
  - intros v x. rewrite lookup_insert. case_decide as Hv.
    + intros [= <-]. subst v. by exists [].
    + rewrite lookup_dict_from_keys. by case_decide.
  - intros v u. rewrite lookup_dict_from_keys. by case_decide.
  - intros v Hp. rewrite lookup_dict_from_keys in Hp.
    case_decide as Hn; [|done]. rewrite lookup_insert.
    case_decide; [by right | left].
    by rewrite lookup_dict_from_keys, decide_True.
  - intros u. rewrite lookup_dict_from_keys. by case_decide.
Qed.

Lemma relax_edge_eq d p u v w du dv :
  d !! u = Some du → d !! v = Some dv →
  relax_edge (d, p) (u, v, w) =
    Ok (if dlt (dadd du w) dv
        then (<[v := dadd du w]> d, <[v := Some u]> p) else (d, p)).
Proof.
  intros Hu Hv. unfold relax_edge.
  rewrite (getitem_ok _ _ _ Hu), (getitem_ok _ _ _ Hv). simpl.
  by destruct (dlt (dadd du w) dv).
Qed.

Lemma relax_edge_inv st u v w :
  inv g s st → (u, v, w) ∈ edges g →
  ∃ st', relax_edge st (u, v, w) = Ok st' ∧ inv g s st' ∧ mono st st' ∧
         dle (dval st'.1 v) (dadd (dval st.1 u) w).
Proof.
  destruct st as [d p]. intros Hinv He.
  destruct (inv_dkeys _ _ _ Hinv u) as [du Hu]; [by eapply edge_source_node|].
  destruct (inv_dkeys _ _ _ Hinv v) as [dv Hv]; [by eapply edge_target_node|].
  simpl in Hu, Hv. rewrite (relax_edge_eq _ _ _ _ _ _ _ Hu Hv).
  eexists. split; [done|].
  destruct (dlt (dadd du w) dv) eqn:Hlt; simpl.
  2:{ split; [done|]. split; [apply mono_refl|].
      rewrite (dval_some _ _ _ Hu), (dval_some _ _ _ Hv).
      by apply dlt_false. }
  destruct du as [x|]; [|done]. simpl in *.
  assert (∀ y, dv = Fin y → x + w < y) as Hdv.
  { intros y ->. simpl in Hlt. by apply bool_decide_eq_true in Hlt. }
  split; [|split].
  - destruct Hinv as [Hdk Hpk (x0 & Hs & Hx0) Hwalk Hpred Hroot Hsp]. simpl in *.
    split; simpl.
    + intros n Hn. rewrite lookup_insert. case_decide; [by eexists | auto].
    + intros n Hn. rewrite lookup_insert. case_decide; [by eexists | auto].
    + rewrite lookup_insert. case_decide as Hvs; [|eauto].
      subst v. exists (x + w). split; [done|].
      specialize (Hdv x0). rewrite Hs in Hv. injection Hv as <-.
      specialize (Hdv eq_refl). lia.
    + intros n z. rewrite lookup_insert. case_decide as Hvn; [|auto].
      intros [= <-]. subst n. destruct (Hwalk _ _ Hu) as (es & Hes & Hwt).
      exists (es ++ [(u, v, w)]). split; [by apply is_walk_snoc|].
      rewrite weight_app, Hwt. unfold weight. simpl. lia.
    + intros n a. rewrite lookup_insert. case_decide as Hvn.
      * intros [= <-]. subst n. exists w. rewrite lookup_insert_eq.
        rewrite lookup_insert. case_decide as Hvu.
        -- subst u. rewrite Hu in Hv. injection Hv as <-.
           specialize (Hdv x eq_refl). exists (x + w), (x + w).
           repeat split; [done | lia].
        -- exists x, (x + w). repeat split; [done | done | lia].
      * intros Hpn. destruct (Hpred _ _ Hpn) as (w' & x' & y' & He' & Ha & Hn' & Hle).
        exists w'. rewrite (lookup_insert_ne _ v n) by done.
        rewrite lookup_insert. case_decide as Hva.
        -- subst a. rewrite Ha in Hv. injection Hv as <-.
           specialize (Hdv x' eq_refl). exists (x + w), y'.
           repeat split; [done | done | lia].
        -- exists x', y'. by repeat split.
    + intros n. rewrite !lookup_insert. case_decide as Hvn; [done|]. auto.
    + intros a. rewrite !lookup_insert. case_decide as Hvs.
      * intros _. subst v. exists (x + w). split; [done|].
        rewrite Hs in Hv. injection Hv as <-. specialize (Hdv x0 eq_refl). lia.
      * apply Hsp.
  - intros n. simpl. rewrite dval_insert. case_decide as Hvn; [|apply dle_refl].
    subst n. rewrite (dval_some _ _ _ Hv).
    destruct dv as [y|]; simpl; [|done]. specialize (Hdv y eq_refl). lia.
  - rewrite dval_insert, decide_True by done.
    rewrite (dval_some _ _ _ Hu). simpl. lia.
Qed.

Lemma relax_round_inv st :
  inv g s st →
  ∃ st', relax_round g st = Ok st' ∧ inv g s st' ∧ mono st st' ∧
    ∀ u v w, (u, v, w) ∈ edges g →
      dle (dval st'.1 v) (dadd (dval st.1 u) w).
Proof.
  unfold relax_round.
  assert (∀ l st, (∀ e, e ∈ l → e ∈ edges g) → inv g s st →
    ∃ st', for_each relax_edge l st = Ok st' ∧ inv g s st' ∧ mono st st' ∧
      ∀ u v w, (u, v, w) ∈ l → dle (dval st'.1 v) (dadd (dval st.1 u) w))
    as Hgen.
  { clear st. induction l as [|[[u v] w] l IH]; intros st Hl Hinv; simpl.
    - exists st. split_and!; [done | done | apply mono_refl |].
      intros u v w Hin. by apply elem_of_nil in Hin.
    - destruct (relax_edge_inv st u v w Hinv) as (st1 & -> & Hinv1 & Hm1 & Hb1);
        [apply Hl; left|]. simpl.
      destruct (IH st1) as (st' & -> & Hinv' & Hm' & Hb'); [|done|].
      { intros e He. apply Hl. by right. }
      exists st'. split; [done|]. split; [done|].
      split; [by eapply mono_trans|].
      intros u' v' w' [Heq|Hin]%elem_of_cons.
      + simplify_eq. eapply dle_trans; [apply Hm' | done].
      + eapply dle_trans; [by apply Hb'|]. apply dle_dadd, Hm1. }
  intros Hinv. by apply Hgen.
Qed.

Lemma relax_rounds_inv k st :
  inv g s st → ∃ st', relax_rounds k g st = Ok st' ∧ inv g s st' ∧ mono st st'.
Proof.
  revert st. induction k as [|k IH]; intros st Hinv; simpl.
  - exists st. split_and!; [done | done | apply mono_refl].
  - destruct (relax_round_inv st Hinv) as (st1 & -> & Hinv1 & Hm1 & _). simpl.
    destruct (IH st1 Hinv1) as (st' & -> & Hinv' & Hm').
    exists st'. split_and!; [done | done | by eapply mono_trans].
Qed.

(** *** The verification pass *)

Lemma check_edge_cases d u v w :
  (∀ n, n ∈ nodes g → is_Some (d !! n)) → (u, v, w) ∈ edges g →
  (check_edge d tt (u, v, w) = Ok tt ∧ dle (dval d v) (dadd (dval d u) w)) ∨
  (check_edge d tt (u, v, w) = Raise ValueError ∧ improving d (u, v, w)).
Proof.
  intros Hk He.
  destruct (Hk u) as [du Hu]; [by eapply edge_source_node|].
  destruct (Hk v) as [dv Hv]; [by eapply edge_target_node|].
  unfold check_edge. rewrite (getitem_ok _ _ _ Hu), (getitem_ok _ _ _ Hv).
  simpl. destruct (dlt (dadd du w) dv) eqn:Hlt.
  - right. split; [done|]. by exists du, dv.
  - left. split; [done|]. rewrite (dval_some _ _ _ Hu), (dval_some _ _ _ Hv).
    by apply dlt_false.
Qed.

Lemma check_cases d :
  (∀ n, n ∈ nodes g → is_Some (d !! n)) →
  (check_negative_cycle g d = Ok tt ∧ feasible g d) ∨
  (check_negative_cycle g d = Raise ValueError ∧
   ∃ e, e ∈ edges g ∧ improving d e).
Proof.
  intros Hk. unfold check_negative_cycle, feasible.
  assert (∀ l, (∀ e, e ∈ l → e ∈ edges g) →
    (for_each (check_edge d) l tt = Ok tt ∧
     ∀ u v w, (u, v, w) ∈ l → dle (dval d v) (dadd (dval d u) w)) ∨
    (for_each (check_edge d) l tt = Raise ValueError ∧
     ∃ e, e ∈ l ∧ improving d e)) as Hgen.
  { induction l as [|[[u v] w] l IH]; intros Hl; cbn [for_each].
    - left. split; [done|]. intros u v w Hin. by apply elem_of_nil in Hin.
    - destruct (check_edge_cases d u v w Hk) as [[-> Hle]|[-> Himp]];
        [apply Hl; left | |]; simpl.
      + destruct IH as [[-> Hall]|[-> (e & Hin & Himp)]].
        { intros e He. apply Hl. by right. }
        * left. split; [done|].
          intros u' v' w' [Heq|Hin]%elem_of_cons; [by simplify_eq | auto].
        * right. split; [done|]. exists e. split; [by right | done].
      + right. split; [done|]. exists (u, v, w). split; [left | done]. }
  destruct (Hgen (edges g)) as [[? ?]|[? (e & ? & ?)]]; eauto.
Qed.

Lemma improving_not_feasible d e :
  e ∈ edges g → improving d e → ¬ feasible g d.
Proof.
  destruct e as [[u v] w]. intros He (du & dv & Hu & Hv & Hlt) Hf. simpl in *.
  specialize (Hf u v w He).
  rewrite (dval_some _ _ _ Hu), (dval_some _ _ _ Hv) in Hf.
  by apply dlt_true in Hlt.
Qed.

(** A further sweep over stabilised distances changes nothing. *)
Lemma relax_round_feasible st :
  (∀ n, n ∈ nodes g → is_Some (st.1 !! n)) → feasible g st.1 →
  relax_round g st = Ok st.
Proof.
  destruct st as [d p]. simpl. intros Hk Hf. unfold relax_round.
  assert (∀ l, (∀ e, e ∈ l → e ∈ edges g) →
    for_each relax_edge l (d, p) = Ok (d, p))
    as Hgen; [|by apply Hgen].
  induction l as [|[[u v] w] l IH]; intros Hl; cbn [for_each]; [done|].
  assert ((u, v, w) ∈ edges g) as He by (apply Hl; left).
  destruct (Hk u) as [du Hu]; [by eapply edge_source_node|].
  destruct (Hk v) as [dv Hv]; [by eapply edge_target_node|].
  rewrite (relax_edge_eq _ _ _ _ _ _ _ Hu Hv).
  specialize (Hf u v w He).
  rewrite (dval_some _ _ _ Hu), (dval_some _ _ _ Hv) in Hf.
  apply dlt_false in Hf. rewrite Hf. simpl. apply IH.
  intros e Hin. apply Hl. by right.
Qed.

Lemma feasible_walk d a es b :
  feasible g d → is_walk g a es b →
  dle (dval d b) (dadd (dval d a) (weight es)).
Proof.
  intros Hf. revert a. induction es as [|[[u v] w] es IH]; intros a; simpl.
  - intros ->. destruct (dval d b); simpl; [lia | done].
  - intros (-> & He & Hw). eapply dle_trans; [by apply IH|].
    eapply dle_trans; [apply dle_dadd, Hf, He|].
    unfold weight. simpl. destruct (dval d a); simpl; [lia | done].
Qed.

Lemma dval_fin d n x : dval d n = Fin x → d !! n = Some (Fin x).
Proof. unfold dval. destruct (d !! n); simpl; congruence. Qed.

(** Stabilised distances admit no negative cycle within reach of the
    source. *)
Lemma feasible_no_negative_cycle st :
  inv g s st → feasible g st.1 → ¬ negative_cycle_reachable g s.
Proof.
  intros Hinv Hf (c & [e1 H1] & e2 & H2 & Hneg).
  destruct (inv_source _ _ _ Hinv) as (x0 & Hs & _).
  pose proof (feasible_walk _ _ _ _ Hf H1) as Hc.
  pose proof (feasible_walk _ _ _ _ Hf H2) as Hcc.
  rewrite (dval_some _ _ _ Hs) in Hc. simpl in Hc.
  destruct (dval st.1 c) as [y|]; simpl in *; [lia | done].
Qed.

Lemma feasible_source st :
  inv g s st → feasible g st.1 → st.1 !! s = Some (Fin 0).
Proof.
  intros Hinv Hf. destruct (inv_source _ _ _ Hinv) as (x0 & Hs & Hle).
  destruct (inv_walk _ _ _ Hinv _ _ Hs) as (es & Hes & Hwt).
  pose proof (feasible_walk _ _ _ _ Hf Hes) as Hc.
  rewrite (dval_some _ _ _ Hs) in Hc. simpl in Hc.
  rewrite Hs. do 2 f_equal. lia.
Qed.

Lemma feasible_min st n :
  inv g s st → feasible g st.1 → reachable g s n →
  ∃ m, st.1 !! n = Some (Fin m) ∧ min_path_weight g s n m.
Proof.
  intros Hinv Hf [es Hes].
  pose proof (feasible_source _ Hinv Hf) as Hs.
  pose proof (feasible_walk _ _ _ _ Hf Hes) as Hc.
  rewrite (dval_some _ _ _ Hs) in Hc. simpl in Hc.
  destruct (dval st.1 n) as [m|] eqn:Hn; [|done].
  apply dval_fin in Hn. exists m. split; [done|]. split.
  - by apply (inv_walk _ _ _ Hinv).
  - intros es' Hes'. pose proof (feasible_walk _ _ _ _ Hf Hes') as Hc'.
    rewrite (dval_some _ _ _ Hs), (dval_some _ _ _ Hn) in Hc'. simpl in Hc'. lia.
Qed.


(** *** Convergence in [|V| - 1] rounds *)

Lemma bounded_initial : bounded g s 0 (initial_state g s).1.
Proof.
  intros es v Hes Hlen. destruct es; [|simpl in Hlen; lia].
  simpl in Hes. subst v. unfold initial_state, dval. simpl.
  rewrite lookup_insert_eq. simpl. unfold weight. simpl. lia.
Qed.

Lemma bounded_round k st st' :
  inv g s st → bounded g s k st.1 → relax_round g st = Ok st' → bounded g s (S k) st'.1.
Proof.
  intros Hinv Hb Hr.
  destruct (relax_round_inv st Hinv) as (st1 & Hr1 & _ & Hm & He).
  rewrite Hr in Hr1. injection Hr1 as <-.
  intros es v Hes Hlen.
  destruct es as [|e0 es0] using rev_ind.
  - eapply dle_trans; [apply Hm|]. apply (Hb [] v Hes). simpl. lia.
  - clear IHes0. destruct e0 as [[a b] w].
    apply is_walk_app_inv in Hes as (c & H1 & H2).
    simpl in H2. destruct H2 as (-> & Hab & <-).
    rewrite length_app in Hlen. simpl in Hlen.
    eapply dle_trans; [by apply He|].
    assert (dle (dval st.1 c) (Fin (weight es0))) as Hc by (apply Hb; [done | lia]).
    apply (dle_dadd _ _ w) in Hc. eapply dle_trans; [done|].
    rewrite weight_app. unfold weight. simpl. lia.
Qed.

Lemma bounded_rounds k j st st' :
  inv g s st → bounded g s j st.1 → relax_rounds k g st = Ok st' →
  bounded g s (j + k) st'.1.
Proof.
  revert j st. induction k as [|k IH]; intros j st Hinv Hb; simpl.
  - intros [= <-]. by rewrite Nat.add_0_r.
  - intros Hr. apply obind_ok in Hr as (st1 & Hr1 & Hr).
    destruct (relax_round_inv st Hinv) as (st1' & Hr1' & Hinv1 & _).
    rewrite Hr1 in Hr1'. injection Hr1' as <-.
    replace (j + S k)%nat with (S j + k)%nat by lia.
    apply (IH (S j) st1 Hinv1); [|done].
    apply (bounded_round j st st1 Hinv Hb Hr1).
Qed.


(** The state after the [|V| - 1] rounds of [bellman_ford]. *)
Lemma rounds_total :
  ∃ st, relax_rounds (length (nodes g) - 1) g (initial_state g s) = Ok st ∧
        inv g s st ∧ bounded g s (length (nodes g) - 1) st.1.
Proof.
  destruct (relax_rounds_inv (length (nodes g) - 1) _ inv_initial)
    as (st & Hr & Hinv & _).
  exists st. split_and!; [done | done |].
  apply (bounded_rounds _ 0 _ _ inv_initial bounded_initial Hr).
Qed.

(** *** The predecessor links never close a cycle *)

Lemma pred_chain_trans p a b c :
  pred_chain p a b → pred_chain p b c → pred_chain p a c.
Proof.
  induction 1 as [|a b b' Hab _ IH]; [done|].
  intros Hc. eapply pred_chain_step; eauto.
Qed.

Lemma pred_chain_insert p u v x y :
  pred_chain (<[v := Some u]> p) x y →
  pred_chain p x y ∨ (pred_chain p x v ∧ pred_chain p u y).
Proof.
  induction 1 as [a|a b c Hab _ IH].
  - left. constructor.
  - rewrite lookup_insert in Hab. case_decide as Hva.
    + injection Hab as <-. subst a. right. split; [constructor|].
      by destruct IH as [?|[_ ?]].
    + destruct IH as [IH|[IH1 IH2]].
      * left. by eapply pred_chain_step.
      * right. split; [by eapply pred_chain_step | done].
Qed.

(** A chain of predecessor links is a walk of the graph, read backwards,
    that accounts for the gap between the two distances. *)
Lemma pred_chain_walk st a b x :
  inv g s st → pred_chain st.2 a b → st.1 !! a = Some (Fin x) →
  ∃ es y, is_walk g b es a ∧ st.1 !! b = Some (Fin y) ∧ y + weight es ≤ x.
Proof.
  intros Hinv Hch. revert x. induction Hch as [a|a b c Hab _ IH]; intros x Ha.
  - exists [], x. split_and!; [done | done | unfold weight; simpl; lia].
  - destruct (inv_pred _ _ _ Hinv _ _ Hab) as (w & xb & xa & He & Hb & Ha' & Hle).
    rewrite Ha in Ha'. injection Ha' as <-.
    destruct (IH _ Hb) as (es & y & Hes & Hc & Hle').
    exists (es ++ [(b, a, w)]), y. split_and!; [by apply is_walk_snoc | done |].
    rewrite weight_app. unfold weight at 2. simpl. lia.
Qed.

Lemma acyclic_initial : acyclic (initial_state g s).2.
Proof.
  intros a b. unfold initial_state. simpl.
  rewrite lookup_dict_from_keys. by case_decide.
Qed.

Lemma acyclic_relax st st' u v w :
  ¬ negative_cycle_reachable g s → inv g s st → acyclic st.2 →
  (u, v, w) ∈ edges g → relax_edge st (u, v, w) = Ok st' → acyclic st'.2.
Proof.
  destruct st as [d p]. cbn [fst snd]. intros Hnn Hinv Hac He.
  destruct (inv_dkeys _ _ _ Hinv u) as [du Hu]; [by eapply edge_source_node|].
  destruct (inv_dkeys _ _ _ Hinv v) as [dv Hv]; [by eapply edge_target_node|].
  simpl in Hu, Hv. rewrite (relax_edge_eq _ _ _ _ _ _ _ Hu Hv).
  intros [= <-]. destruct (dlt (dadd du w) dv) eqn:Hlt; [|done]. simpl.
  destruct du as [x|]; [|done]. simpl in Hlt.
  assert (¬ pred_chain p u v) as Hnc.
  { intros Hch.
    destruct (pred_chain_walk (d, p) u v x Hinv Hch Hu) as (es & y & Hes & Hy & Hle).
    simpl in Hy. rewrite Hv in Hy. injection Hy as ->.
    simpl in Hlt. apply bool_decide_eq_true in Hlt.
    apply Hnn. exists v. split.
    - destruct (inv_walk _ _ _ Hinv v y Hv) as (es0 & Hes0 & _). by exists es0.
    - exists (es ++ [(u, v, w)]). split; [by apply is_walk_snoc|].
      rewrite weight_app. unfold weight at 2. simpl. lia. }
  intros a b Hab Hch. rewrite lookup_insert in Hab.
  apply pred_chain_insert in Hch. case_decide as Hva.
  - injection Hab as <-. subst a. by destruct Hch as [?|[? _]].
  - destruct Hch as [Hch|[Hbv Hua]]; [by eapply Hac|].
    apply Hnc. eapply pred_chain_trans; [done|]. by eapply pred_chain_step.
Qed.

Lemma acyclic_rounds k st :
  ¬ negative_cycle_reachable g s →
  relax_rounds k g (initial_state g s) = Ok st → acyclic st.2.
Proof.
  intros Hnn.
  assert (∀ l st, (∀ e, e ∈ l → e ∈ edges g) → inv g s st ∧ acyclic st.2 →
    ∃ st', for_each relax_edge l st = Ok st' ∧ inv g s st' ∧ acyclic st'.2) as Hround.
  { intros l st0 Hl H0. apply (for_each_inv (fun st => inv g s st ∧ acyclic st.2)); [done|].
    intros st1 [[u v] w] Hin [Hinv Hac].
    destruct (relax_edge_inv st1 u v w Hinv (Hl _ Hin)) as (st2 & Hr & Hinv2 & _).
    exists st2. split_and!; [done | done |].
    apply (acyclic_relax st1 st2 u v w Hnn Hinv Hac (Hl _ Hin) Hr). }
  assert (∀ k st, inv g s st ∧ acyclic st.2 →
    ∃ st', relax_rounds k g st = Ok st' ∧ inv g s st' ∧ acyclic st'.2) as Hrounds.
  { clear k st. induction k as [|k IH]; intros st H0; simpl; [by exists st|].
    destruct (Hround (edges g) st) as (st1 & Hr & H1); [done | done |].
    unfold relax_round. rewrite Hr. simpl. by apply IH. }
  intros Hr. destruct (Hrounds k (initial_state g s)) as (st' & Hr' & _ & Hac).
  { split; [apply inv_initial | apply acyclic_initial]. }
  rewrite Hr in Hr'. by injection Hr' as <-.
Qed.

(** *** Path reconstruction *)

Lemma walk_predecessors_none fuel p acc :
  walk_predecessors fuel p None acc = Ok acc.
Proof. by destruct fuel. Qed.


Lemma walk_predecessors_path p fuel c acc path :
  walk_predecessors fuel p (Some c) acc = Ok path →
  ∃ l, pred_path p l c ∧ path = l ++ acc.
Proof.
  revert c acc. induction fuel as [|fuel IH]; intros c acc; [done|].
  cbn [walk_predecessors]. intros H.
  apply obind_ok in H as (nxt & Hg & H).
  unfold getitem in Hg. destruct (p !! c) as [nxt'|] eqn:Hc; [|done].
  injection Hg as ->. destruct nxt as [b|].
  - destruct (IH _ _ H) as (l & Hl & ->). exists (l ++ [c]).
    split; [by apply (pred_path_step _ _ b)|]. by rewrite <- app_assoc.
  - rewrite walk_predecessors_none in H. injection H as <-.
    exists [c]. split; [by constructor | done].
Qed.

(** The links followed back from a node of finite distance lead to the
    source along edges of the graph. *)
Lemma pred_path_shape st l c x :
  inv g s st → pred_path st.2 l c → st.1 !! c = Some (Fin x) →
  head l = Some s ∧ last l = Some c ∧ edges_connect g l.
Proof.
  intros Hinv Hp. revert x. induction Hp as [c Hc|l b c Hc Hp IH]; intros x Hx.
  - destruct (inv_root _ _ _ Hinv _ Hc) as [Hinf|[-> _]]; [congruence|].
    split_and!; [done | done |]. intros i a a' _ Ha'. by destruct i.
  - destruct (inv_pred _ _ _ Hinv _ _ Hc) as (w & xb & _ & He & Hb & _).
    destruct (IH _ Hb) as (Hhd & Hlast & Hconn).
    split_and!.
    + destruct l; [done | by simpl].
    + by rewrite last_snoc.
    + intros i a a' Ha Ha'.
      destruct (decide (S i < length l)%nat) as [Hlt|Hge].
      * rewrite lookup_app_l in Ha, Ha' by lia. by eapply Hconn.
      * assert (S i = length l) as Hi.
        { apply lookup_lt_Some in Ha'. rewrite length_app in Ha'. simpl in Ha'. lia. }
        rewrite lookup_app_l in Ha by lia.
        rewrite lookup_app_r in Ha' by lia.
        rewrite Hi, Nat.sub_diag in Ha'. injection Ha' as <-.
        rewrite last_lookup in Hlast.
        replace (Nat.pred (length l)) with i in Hlast by lia.
        rewrite Hlast in Ha. injection Ha as <-. by exists w.
Qed.

Lemma construct_paths_spec fuel d p l paths0 paths :
  for_each (construct_path fuel d p) l paths0 = Ok paths →
  ∀ n path, paths !! n = Some path →
    paths0 !! n = Some path ∨
    (n ∈ l ∧ (∃ x, d !! n = Some (Fin x)) ∧
     walk_predecessors fuel p (Some n) [] = Ok path).
Proof.
  revert paths0. induction l as [|a l IH]; intros paths0; cbn [for_each].
  - intros [= <-]. auto.
  - intros H. apply obind_ok in H as (paths1 & Hc & H).
    unfold construct_path in Hc.
    apply obind_ok in Hc as (pa & Hwalk & Hc).
    apply obind_ok in Hc as (da & Hda & Hc).
    unfold getitem in Hda. destruct (d !! a) as [da'|] eqn:Ha; [|done].
    injection Hda as ->.
    intros n path Hn. destruct (IH _ H _ _ Hn) as [H1|(Hin & Hfin & Hw)].
    + destruct da as [x|]; simpl in Hc; injection Hc as <-; [|auto].
      rewrite lookup_insert in H1. case_decide as Han; [|auto].
      injection H1 as <-. subst n. right. split_and!; [left | by exists x | done].
    + right. split_and!; [by right | done | done].
Qed.

Lemma construct_paths_present fuel d p l paths0 paths n x :
  for_each (construct_path fuel d p) l paths0 = Ok paths →
  d !! n = Some (Fin x) →
  n ∈ l ∨ (∃ path, paths0 !! n = Some path ∧
                   walk_predecessors fuel p (Some n) [] = Ok path) →
  ∃ path, paths !! n = Some path ∧
          walk_predecessors fuel p (Some n) [] = Ok path.
Proof.
  intros H Hn. revert paths0 H. induction l as [|a l IH]; intros paths0; cbn [for_each].
  - intros [= <-] [Hin|?]; [by apply elem_of_nil in Hin | done].
  - intros H Hcase. apply obind_ok in H as (paths1 & Hc & H).
    apply (IH _ H). unfold construct_path in Hc.
    apply obind_ok in Hc as (pa & Hwalk & Hc).
    apply obind_ok in Hc as (da & Hda & Hc).
    unfold getitem in Hda. destruct (d !! a) as [da'|] eqn:Ha; [|done].
    injection Hda as ->.
    destruct (decide (a = n)) as [->|Hne].
    + rewrite Hn in Ha. injection Ha as <-. simpl in Hc. injection Hc as <-.
      right. exists pa. by rewrite lookup_insert_eq.
    + destruct Hcase as [[?|Hin]%elem_of_cons|(path & Hp & Hw)]; [done | by left |].
      right. exists path. split; [|done].
      destruct (is_finite da); injection Hc as <-; [|done].
      by rewrite lookup_insert_ne.
Qed.


(** *** [bellman_ford] as a whole *)

(** A successful call went through stabilised distances. *)
Lemma bellman_ford_ok fuel d paths :
  bellman_ford fuel g s = Ok (d, paths) →
  ∃ p, relax_rounds (length (nodes g) - 1) g (initial_state g s) = Ok (d, p) ∧
       inv g s (d, p) ∧ feasible g d ∧
       for_each (construct_path fuel d p) (nodes g) ∅ = Ok paths.
Proof.
  unfold bellman_ford. intros H.
  apply obind_ok in H as ([d' p] & Hr & H).
  apply obind_ok in H as ([] & Hc & H).
  apply obind_ok in H as (paths' & Hp & H). simpl in *.
  injection H as -> ->. exists p.
  destruct rounds_total as (st & Hr' & Hinv & _).
  rewrite Hr in Hr'. injection Hr' as <-.
  split_and!; [done | done | | done].
  destruct (check_cases d (inv_dkeys _ _ _ Hinv)) as [[_ Hf]|[Hc' _]]; [done|].
  simpl in Hc'. congruence.
Qed.



(** Contents of the returned [paths] dict. *)
Lemma bellman_ford_paths fuel d paths n path :
  bellman_ford fuel g s = Ok (d, paths) → paths !! n = Some path →
  ∃ p x l, inv g s (d, p) ∧ n ∈ nodes g ∧ d !! n = Some (Fin x) ∧
           pred_path p l n ∧ path = l.
Proof.
  intros H Hn. apply bellman_ford_ok in H as (p & _ & Hinv & _ & Hp).
  destruct (construct_paths_spec _ _ _ _ _ _ Hp _ _ Hn)
    as [He|(Hin & [x Hx] & Hw)]; [by rewrite lookup_empty in He|].
  apply walk_predecessors_path in Hw as (l & Hl & ->).
  exists p, x, l. by rewrite app_nil_r.
Qed.
End relaxation.

(** ** A source outside the node set *)

Section foreign_source.
Variable g : DiGraph.
Variable s : string.
Hypothesis Hwf : wf_graph g.
Hypothesis Hs : s ∉ nodes g.

Lemma foreign_source_distance n :
  n ∈ nodes g → (initial_state g s).1 !! n = Some Inf.
Proof.
  intros Hn. unfold initial_state. simpl.
  rewrite lookup_insert_ne by (intros ->; done).
  by rewrite lookup_dict_from_keys, decide_True.
Qed.

Lemma foreign_source_feasible : feasible g (initial_state g s).1.
Proof.
  intros u v w He.
  rewrite (dval_some _ u Inf); [apply dle_inf|].
  apply foreign_source_distance. by eapply edge_source_node.
Qed.

Lemma foreign_source_rounds k :
  relax_rounds k g (initial_state g s) = Ok (initial_state g s).
Proof.
  induction k as [|k IH]; simpl; [done|].
  rewrite (relax_round_feasible g Hwf); [done | | apply foreign_source_feasible].
  apply (inv_dkeys _ _ _ (inv_initial g s)).
Qed.

Lemma foreign_source_path fuel paths n :
  (0 < fuel)%nat → n ∈ nodes g →
  construct_path fuel (initial_state g s).1 (initial_state g s).2 paths n
  = Ok paths.
Proof.
  intros Hfuel Hn. pose proof (foreign_source_distance n Hn) as Hd.
  assert ((initial_state g s).2 !! n = Some None) as Hp.
  { unfold initial_state. simpl. by rewrite lookup_dict_from_keys, decide_True. }
  destruct (initial_state g s) as [d p]. cbn [fst snd] in *.
  unfold construct_path. destruct fuel as [|fuel]; [lia|].
  cbn [walk_predecessors]. rewrite (getitem_ok _ _ _ Hp). simpl.
  rewrite walk_predecessors_none. simpl.
  by rewrite (getitem_ok _ _ _ Hd).
Qed.

Lemma foreign_source_paths fuel l :
  (0 < fuel)%nat → (∀ n, n ∈ l → n ∈ nodes g) →
  for_each (construct_path fuel (initial_state g s).1 (initial_state g s).2) l ∅
  = Ok ∅.
Proof.
  intros Hfuel. induction l as [|n l IH]; intros Hl; cbn [for_each]; [done|].
  rewrite foreign_source_path; [|done|apply Hl; left]. simpl.
  apply IH. intros m Hm. apply Hl. by right.
Qed.
End foreign_source.

(** ** What a returned result certifies *)


(** Whatever [bellman_ford] returns is right for every node within reach. *)
Lemma ok_shortest g s fuel d paths n :
  wf_graph g → bellman_ford fuel g s = Ok (d, paths) → reachable g s n →
  ∃ m, d !! n = Some (Fin m) ∧ min_path_weight g s n m.
Proof.
  intros Hwf H Hn. apply bellman_ford_ok in H as (p & _ & Hinv & Hf & _); [|done].
  by apply (feasible_min g s (d, p)).
Qed.

(** ** The loader: insertion-ordered dicts and [add_edge] *)

Lemma dict_alter_keys {V} (f : V → V) k (d : list (string * V)) :
  (dict_alter f k d).*1 = d.*1.
Proof.
  induction d as [|[k' y] d IH]; [done|]. cbn [dict_alter].
  case_decide; csimpl; [done | by rewrite IH].
Qed.






Lemma dict_get_alter {V} (f : V → V) k k' (d : list (string * V)) :
  dict_get k' (dict_alter f k d) =
    if decide (k = k') then f <$> dict_get k' d else dict_get k' d.
Proof.
  induction d as [|[a y] d IH]; [by case_decide|]. cbn [dict_alter dict_get].
  destruct (decide (k = a)) as [->|Hk]; cbn [dict_get].
  - destruct (decide (k' = a)) as [->|Hk'].
    + by rewrite decide_True.
    + by rewrite decide_False by done.
  - destruct (decide (k' = a)) as [->|Hk']; [by rewrite decide_False|].
    apply IH.
Qed.

Lemma dict_get_is_Some {V} k (d : list (string * V)) :
  is_Some (dict_get k d) ↔ k ∈ d.*1.
Proof.
  induction d as [|[a y] d IH]; csimpl.
  - split; [by intros [? ?] | by intros ?%elem_of_nil].
  - case_decide as Hk; [subst|].
    + split; [left | by eexists].
    + rewrite IH. split; [by right|]. by intros [?|?]%elem_of_cons.
Qed.


Lemma dict_set_keys {V} k (x : V) (d : list (string * V)) k' :
  k' ∈ (dict_set k x d).*1 ↔ k' = k ∨ k' ∈ d.*1.
Proof.
  induction d as [|[a y] d IH]; csimpl.
  - rewrite list_elem_of_singleton. split; [auto|]. intros [?|?%elem_of_nil]; done.
  - case_decide as Hk; csimpl.
    + subst a. rewrite elem_of_cons. tauto.
    + rewrite !elem_of_cons, IH. tauto.
Qed.




Lemma elem_of_nodes_add_node n g x :
  x ∈ nodes (add_node n g) ↔ x = n ∨ x ∈ nodes g.
Proof.
  unfold add_node. case_decide as Hn.
  - split; [auto|]. intros [Hx|?]; [by subst | done].
  - unfold nodes. rewrite fmap_app, elem_of_app. csimpl.
    rewrite list_elem_of_singleton. tauto.
Qed.



Lemma elem_of_nodes_add_edge u v w g x :
  x ∈ nodes (add_edge u v w g) ↔ x = u ∨ x = v ∨ x ∈ nodes g.
Proof.
  unfold add_edge, nodes. rewrite dict_alter_keys.
  fold (nodes (add_node v (add_node u g))).
  rewrite !elem_of_nodes_add_node. tauto.
Qed.





Lemma read_graph_snoc rows row :
  read_graph_from_excel (rows ++ [row]) = add_row (read_graph_from_excel rows) row.
Proof. unfold read_graph_from_excel. by rewrite fold_left_app. Qed.






(** *** What the merged sheets hold *)




Lemma last_weight_snoc rows row u v :
  last_weight (rows ++ [row]) u v =
    if decide (row.1 = (u, v)) then Some row.2 else last_weight rows u v.
Proof.
  unfold last_weight, weights_of. rewrite filter_app, fmap_app, last_app.
  rewrite filter_cons, filter_nil. by case_decide.
Qed.


(** *** The loader builds well-formed graphs *)

Lemma dict_set_NoDup {V} k (x : V) (d : list (string * V)) :
  NoDup d.*1 → NoDup (dict_set k x d).*1.
Proof.
  induction d as [| [a y] d IH]; csimpl.
  - intros _. apply NoDup_singleton.
  - intros [Ha Hd]%NoDup_cons. case_decide as Hk; csimpl.
    + by constructor.
    + constructor; [|by apply IH]. rewrite dict_set_keys. intros [?|?]; done.
Qed.

Lemma add_node_NoDup n g : NoDup (nodes g) → NoDup (nodes (add_node n g)).
Proof.
  intros Hg. unfold add_node. case_decide as Hn; [done|].
  unfold nodes. rewrite fmap_app. apply NoDup_app.
  split_and!; [done | | apply NoDup_singleton].
  intros x Hx ->%list_elem_of_singleton. done.
Qed.

Lemma Forall_dict_alter {V} (P : string * V → Prop) f k (d : list (string * V)) :
  (∀ y, P (k, y) → P (k, f y)) → Forall P d → Forall P (dict_alter f k d).
Proof.
  intros Hf. induction 1 as [| [a y] d Hy Hd IH]; csimpl; [done|].
  case_decide as Hk; [subst|]; constructor; auto.
Qed.

Lemma add_edge_wf u v w g : wf_graph g → wf_graph (add_edge u v w g).
Proof.
  intros [Hnd Hall]. split.
  - unfold add_edge, nodes. rewrite dict_alter_keys.
    by apply add_node_NoDup, add_node_NoDup.
  - unfold add_edge at 2. apply Forall_dict_alter.
    + intros nbrs [Hn Hin]. simpl in *. split; [by apply dict_set_NoDup|].
      apply Forall_forall. intros x [->|Hx]%dict_set_keys.
      * apply elem_of_nodes_add_edge. auto.
      * rewrite Forall_forall in Hin. by apply Hin.
    + assert (∀ n h, 
        Forall (fun un => NoDup un.2.*1 ∧
                  Forall (fun x => x ∈ nodes (add_edge u v w g)) un.2.*1) h →
        Forall (fun un => NoDup un.2.*1 ∧
                  Forall (fun x => x ∈ nodes (add_edge u v w g)) un.2.*1)
               (add_node n h)) as Hadd.
      { intros n h Hh. unfold add_node. case_decide; [done|].
        apply Forall_app. split; [done|]. repeat constructor. }
      apply Hadd, Hadd. eapply Forall_impl; [done|].
      intros [a nbrs] [Hn Hin]. split; [done|]. simpl in *.
      eapply Forall_impl; [done|]. intros x Hx.
      apply elem_of_nodes_add_edge. auto.
Qed.

(** Every graph the loader builds is a well-formed [DiGraph]. *)
Lemma read_graph_wf rows : wf_graph (read_graph_from_excel rows).
Proof.
  induction rows as [| [[u v] w] rows IH] using rev_ind.
  - split; constructor.
  - rewrite read_graph_snoc. by apply add_edge_wf.
Qed.

(** ** The scenarios of the specification, evaluated *)

Example scenario1_result :
  bellman_ford 3 scenario1 "A" =
    Ok (list_to_map [("A", Fin 0); ("B", Fin 2); ("C", Fin 1)]%string,
        list_to_map [("A", ["A"]); ("B", ["A"; "C"; "B"]); ("C", ["A"; "C"])]%string).
Proof. vm_compute. reflexivity. Qed.

Example scenario2_result : bellman_ford 3 scenario2 "A" = Raise ValueError.
Proof. vm_compute. reflexivity. Qed.

Example scenario3_result :
  bellman_ford 3 scenario3 "A" =
    Ok (list_to_map [("A", Fin 0); ("B", Fin 5); ("C", Inf)]%string,
        list_to_map [("A", ["A"]); ("B", ["A"; "B"])]%string).
Proof. vm_compute. reflexivity. Qed.

Example scenario4_result :
  bellman_ford 3 scenario4 "A" =
    Ok (list_to_map [("A", Fin 0); ("B", Fin (-1)); ("C", Fin (-2))]%string,
        list_to_map [("A", ["A"]); ("B", ["A"; "B"]); ("C", ["A"; "B"; "C"])]%string).
Proof. vm_compute. reflexivity. Qed.

(** Too little fuel for the walk back from [B] is reported as such. *)
Example scenario1_out_of_fuel : bellman_ford 2 scenario1 "A" = OutOfFuel.
Proof. vm_compute. reflexivity. Qed.

Example duplicate_rows_graph :
  read_graph_from_excel duplicate_rows = [("A", [("B", 5)]); ("B", [])]%string.
Proof. reflexivity. Qed.

(** ** The claims *)








(** C4, as the code has it. A source that is not a node of the graph
    raises nothing: [distances[source] = 0] adds the key, no edge leaves
    it, and [bellman_ford] returns the distances with every node of the
    graph at [inf] and the source at [0], and an empty paths map. *)
Theorem bellman_ford_source_not_in_graph g source fuel :
  wf_graph g → source ∉ nodes g → (0 < fuel)%nat →
  bellman_ford fuel g source =
    Ok (<[source := Fin 0]> (dict_from_keys (nodes g) Inf), ∅).
Proof.
  intros Hwf Hs Hfuel. unfold bellman_ford.
  rewrite (foreign_source_rounds g source Hwf Hs). simpl.
  destruct (check_cases g Hwf (initial_state g source).1)
    as [[Hc _]|[_ (e & He & Hi)]].
  - apply (inv_dkeys _ _ _ (inv_initial g source)).
  - simpl in Hc. rewrite Hc. simpl.
    pose proof (foreign_source_paths g source Hs fuel (nodes g) Hfuel) as Hp.
    simpl in Hp. by rewrite Hp.
  - destruct (improving_not_feasible g _ e He Hi).
    by apply foreign_source_feasible.
Qed.

Lemma bellman_ford_source_not_in_graph_witness :
  bellman_ford 3 scenario1 "Z" =
    Ok (<["Z" := Fin 0]> (dict_from_keys (nodes scenario1) Inf), ∅).
Proof.
  apply (bellman_ford_source_not_in_graph scenario1 "Z" 3).
  - by_compute.
  - by_compute.
  - lia.
Defined.

(** C4, as stated, fails: for the graph of scenario 1 and the identifier
    [Z], which is not one of its nodes, [bellman_ford] raises no error and
    returns a result. *)
Lemma invalid_source_counterexample :
  wf_graph scenario1 ∧ ("Z" ∉ nodes scenario1) ∧
  (¬ ∃ e, bellman_ford 3 scenario1 "Z" = Raise e) ∧
  bellman_ford 3 scenario1 "Z" =
    Ok (list_to_map [("A", Inf); ("B", Inf); ("C", Inf); ("Z", Fin 0)]%string, ∅).
Proof.
  assert (bellman_ford 3 scenario1 "Z" =
    Ok (list_to_map [("A", Inf); ("B", Inf); ("C", Inf); ("Z", Fin 0)]%string, ∅))
    as Hbf by (vm_compute; reflexivity).
  split_and!; [by_compute | by_compute | | done].
  intros [e He]. rewrite Hbf in He. discriminate.
Qed.




(** C6. When [bellman_ford] returns for a source of the graph, the
    distance of the source is [0] and its path is [[source]]. *)
Theorem bellman_ford_source g source fuel distances paths :
  wf_graph g → source ∈ nodes g →
  bellman_ford fuel g source = Ok (distances, paths) →
  distances !! source = Some (Fin 0) ∧ paths !! source = Some [source].
Proof.
  intros Hwf Hs Hbf.
  destruct (bellman_ford_ok g source Hwf _ _ _ Hbf) as (p & _ & Hinv & Hf & Hp).
  pose proof (feasible_source g source (distances, p) Hinv Hf) as Hd.
  simpl in Hd. split; [done|].
  destruct (construct_paths_present _ _ _ _ _ _ source 0 Hp Hd)
    as (path & Hpath & Hw); [by left|].
  rewrite Hpath. f_equal.
  apply walk_predecessors_path in Hw as (l & Hl & ->). rewrite app_nil_r.
  inversion Hl as [c Hc|l' b c Hc Hl']; [done|].
  destruct (inv_spred _ _ _ Hinv _ Hc) as (x & Hx & Hneg).
  simpl in Hx. rewrite Hd in Hx. injection Hx as <-. lia.
Qed.

Lemma bellman_ford_source_witness :
  let distances : gmap string dist :=
    list_to_map [("A", Fin 0); ("B", Fin 2); ("C", Fin 1)]%string in
  let paths : gmap string (list string) :=
    list_to_map [("A", ["A"]); ("B", ["A"; "C"; "B"]); ("C", ["A"; "C"])]%string in
  bellman_ford 3 scenario1 "A" = Ok (distances, paths) ∧
  distances !! "A" = Some (Fin 0) ∧ paths !! "A" = Some ["A"].
Proof.
  intros distances paths.
  assert (bellman_ford 3 scenario1 "A" = Ok (distances, paths)) as Hbf
    by (vm_compute; reflexivity).
  split; [done|].
  apply (bellman_ford_source scenario1 "A" 3 distances paths); [| |done]; by_compute.
Defined.

(** C7. Every path in a returned paths map starts with the source, ends
    with its destination, and joins consecutive nodes by edges of the
    graph. *)
Theorem bellman_ford_path_shape g source fuel distances paths dest path :
  wf_graph g →
  bellman_ford fuel g source = Ok (distances, paths) →
  paths !! dest = Some path →
  head path = Some source ∧ last path = Some dest ∧ edges_connect g path.
Proof.
  intros Hwf Hbf Hp.
  destruct (bellman_ford_paths g source Hwf _ _ _ _ _ Hbf Hp)
    as (p & x & l & Hinv & _ & Hx & Hl & ->).
  by apply (pred_path_shape g source (distances, p) l dest x).
Qed.

Lemma bellman_ford_path_shape_witness :
  let distances : gmap string dist :=
    list_to_map [("A", Fin 0); ("B", Fin (-1)); ("C", Fin (-2))]%string in
  let paths : gmap string (list string) :=
    list_to_map [("A", ["A"]); ("B", ["A"; "B"]); ("C", ["A"; "B"; "C"])]%string in
  bellman_ford 3 scenario4 "A" = Ok (distances, paths) ∧
  paths !! "C" = Some ["A"; "B"; "C"]%string ∧
  head ["A"; "B"; "C"]%string = Some "A" ∧
  last ["A"; "B"; "C"]%string = Some "C" ∧
  edges_connect scenario4 ["A"; "B"; "C"]%string.
Proof.
  intros distances paths.
  assert (bellman_ford 3 scenario4 "A" = Ok (distances, paths)) as Hbf
    by (vm_compute; reflexivity).
  assert (paths !! "C" = Some ["A"; "B"; "C"]%string) as Hp
    by (vm_compute; reflexivity).
  split; [done|]. split; [done|].
  apply (bellman_ford_path_shape scenario4 "A" 3 distances paths "C"); [|done|done].
  by_compute.
Defined.







(** ** Further properties of [bellman_ford] *)

(** A property of the state that each relaxation keeps holds after the
    rounds. *)
Lemma relax_rounds_keep (P : state → Prop) g s k st :
  wf_graph g →
  (∀ st0 u v w st1, inv g s st0 → P st0 → (u, v, w) ∈ edges g →
                    relax_edge st0 (u, v, w) = Ok st1 → P st1) →
  P (initial_state g s) →
  relax_rounds k g (initial_state g s) = Ok st → P st.
Proof.
  intros Hwf Hstep H0.
  assert (∀ l st0, (∀ e, e ∈ l → e ∈ edges g) → inv g s st0 ∧ P st0 →
    ∃ st1, for_each relax_edge l st0 = Ok st1 ∧ inv g s st1 ∧ P st1) as Hround.
  { intros l st0 Hl H. apply (for_each_inv (fun st => inv g s st ∧ P st)); [done|].
    intros st1 [[u v] w] Hin [Hinv HP].
    destruct (relax_edge_inv g s Hwf st1 u v w Hinv (Hl _ Hin)) as (st2 & Hr & Hinv2 & _).
    exists st2. split_and!; [done | done |].
    apply (Hstep st1 u v w st2 Hinv HP (Hl _ Hin) Hr). }
  assert (∀ k st0, inv g s st0 ∧ P st0 →
    ∃ st1, relax_rounds k g st0 = Ok st1 ∧ inv g s st1 ∧ P st1) as Hrounds.
  { clear k st. induction k as [|k IH]; intros st0 H; simpl; [by exists st0|].
    destruct (Hround (edges g) st0) as (st1 & Hr & H1); [done | done |].
    unfold relax_round. rewrite Hr. simpl. by apply IH. }
  intros Hr. destruct (Hrounds k (initial_state g s)) as (st' & Hr' & _ & HP).
  { split; [apply inv_initial | done]. }
  rewrite Hr in Hr'. by injection Hr' as <-.
Qed.

(** The keys of the two dicts never change during the relaxation. *)
Lemma keys_exact_rounds g s k st :
  wf_graph g → relax_rounds k g (initial_state g s) = Ok st → keys_exact g s st.
Proof.
  intros Hwf. apply (relax_rounds_keep (keys_exact g s)); [done | |].
  - intros [d p] u v w st1 Hinv [Hd Hp] He.
    destruct (inv_dkeys _ _ _ Hinv u) as [du Hu]; [by eapply edge_source_node|].
    destruct (inv_dkeys _ _ _ Hinv v) as [dv Hv]; [by eapply edge_target_node|].
    cbn [fst snd] in *. rewrite (relax_edge_eq _ _ _ _ _ _ _ Hu Hv). intros [= <-].
    destruct (dlt (dadd du w) dv); [|done]. split; simpl; intros n.
    + rewrite lookup_insert. case_decide as Hvn; [|apply Hd].
      intros _. subst n. left. by eapply edge_target_node.
    + rewrite lookup_insert. case_decide as Hvn; [|apply Hp].
      intros _. subst n. by eapply edge_target_node.
  - unfold initial_state. split; simpl; intros n.
    + rewrite lookup_insert. case_decide; [auto|].
      rewrite lookup_dict_from_keys. case_decide; [auto|]. by intros [? ?].
    + rewrite lookup_dict_from_keys. case_decide; [auto|]. by intros [? ?].
Qed.

(** Everything a successful call went through. *)
Lemma bellman_ford_ok_state g s fuel d paths :
  wf_graph g → bellman_ford fuel g s = Ok (d, paths) →
  ∃ p, inv g s (d, p) ∧ feasible g d ∧ acyclic p ∧ keys_exact g s (d, p) ∧
       for_each (construct_path fuel d p) (nodes g) ∅ = Ok paths.
Proof.
  intros Hwf H.
  destruct (bellman_ford_ok g s Hwf _ _ _ H) as (p & Hr & Hinv & Hf & Hp).
  exists p. split_and!; try done.
  - apply (acyclic_rounds g s Hwf (length (nodes g) - 1) (d, p)); [|done].
    by apply (feasible_no_negative_cycle g s (d, p)).
  - by eapply keys_exact_rounds.
Qed.

Lemma pred_path_ancestors p l c :
  pred_path p l c → ∀ x, x ∈ l → pred_chain p c x.
Proof.
  induction 1 as [c Hc|l b c Hc Hp IH]; intros x.
  - intros ->%list_elem_of_singleton. constructor.
  - rewrite elem_of_app, list_elem_of_singleton. intros [Hx| ->]; [|constructor].
    eapply pred_chain_step; [done|]. by apply IH.
Qed.

Lemma pred_path_NoDup p l c : acyclic p → pred_path p l c → NoDup l.
Proof.
  intros Hac. induction 1 as [c Hc|l b c Hc Hp IH]; [apply NoDup_singleton|].
  apply NoDup_app. split_and!; [done | | apply NoDup_singleton].
  intros x Hx ->%list_elem_of_singleton.
  apply (Hac c b Hc). by eapply pred_path_ancestors.
Qed.

Lemma pred_path_nodes g s st l c :
  inv g s st → pred_path st.2 l c → c ∈ nodes g → ∀ x, x ∈ l → x ∈ nodes g.
Proof.
  intros Hinv. induction 1 as [c Hc|l b c Hc Hp IH]; intros Hcn x.
  - by intros ->%list_elem_of_singleton.
  - rewrite elem_of_app, list_elem_of_singleton. intros [Hx| ->]; [|done].
    apply IH; [|done]. destruct (inv_pred _ _ _ Hinv _ _ Hc) as (w & _ & _ & He & _).
    by eapply edge_source_node.
Qed.

Lemma pred_path_unique p l1 l2 c :
  pred_path p l1 c → pred_path p l2 c → l1 = l2.
Proof.
  intros H1. revert l2. induction H1 as [c Hc|l b c Hc Hp IH]; intros l2 H2.
  - inversion H2 as [c' Hc'|l' b' c' Hc' Hp']; [done | congruence].
  - inversion H2 as [c' Hc'|l' b' c' Hc' Hp']; [congruence|]. subst.
    rewrite Hc in Hc'. injection Hc' as <-. f_equal. by apply IH.
Qed.


Lemma construct_paths_lookup fuel d p l paths n path :
  for_each (construct_path fuel d p) l ∅ = Ok paths →
  paths !! n = Some path →
  n ∈ l ∧ (∃ x, d !! n = Some (Fin x)) ∧ pred_path p path n.
Proof.
  intros Hc Hn.
  destruct (construct_paths_spec _ _ _ _ _ _ Hc _ _ Hn)
    as [He|(Hin & Hx & Hw)]; [by rewrite lookup_empty in He|].
  apply walk_predecessors_path in Hw as (l' & Hl & ->).
  by rewrite app_nil_r.
Qed.

Lemma walk_predecessors_cases g s st fuel c acc :
  inv g s st → c ∈ nodes g →
  (∃ path, walk_predecessors fuel st.2 (Some c) acc = Ok path) ∨
  walk_predecessors fuel st.2 (Some c) acc = OutOfFuel.
Proof.
  intros Hinv. revert c acc. induction fuel as [|fuel IH]; intros c acc Hc; [by right|].
  cbn [walk_predecessors].
  destruct (inv_pkeys _ _ _ Hinv c Hc) as [nxt Hnxt].
  rewrite (getitem_ok _ _ _ Hnxt). simpl. destruct nxt as [b|].
  - apply IH. destruct (inv_pred _ _ _ Hinv _ _ Hnxt) as (w & _ & _ & He & _).
    by eapply edge_source_node.
  - left. rewrite walk_predecessors_none. by eexists.
Qed.

Lemma construct_path_cases g s st fuel paths n :
  inv g s st → n ∈ nodes g →
  (∃ paths', construct_path fuel st.1 st.2 paths n = Ok paths') ∨
  construct_path fuel st.1 st.2 paths n = OutOfFuel.
Proof.
  intros Hinv Hn. unfold construct_path.
  destruct (walk_predecessors_cases g s st fuel n [] Hinv Hn) as [[path ->]| ->];
    [|by right].
  destruct (inv_dkeys _ _ _ Hinv n Hn) as [dn Hdn].
  left. simpl. rewrite (getitem_ok _ _ _ Hdn). simpl.
  destruct (is_finite dn); by eexists.
Qed.

Lemma construct_paths_no_raise g s st fuel l paths e :
  inv g s st → (∀ n, n ∈ l → n ∈ nodes g) →
  for_each (construct_path fuel st.1 st.2) l paths ≠ Raise e.
Proof.
  intros Hinv. revert paths. induction l as [|n l IH]; intros paths Hl; [done|].
  cbn [for_each]. assert (n ∈ nodes g) as Hn by (apply Hl; left).
  destruct (construct_path_cases g s st fuel paths n Hinv Hn) as [[paths' ->]| ->];
    [|done].
  simpl. apply IH. intros m Hm. apply Hl. by right.
Qed.


(** X1. In a result of [bellman_ford] the distances map has an entry for
    every node of the graph and for the source, and for nothing else; the
    paths map has an entry exactly for the nodes of the graph whose distance
    is finite. *)
Theorem bellman_ford_result_keys g source fuel distances paths n :
  wf_graph g → bellman_ford fuel g source = Ok (distances, paths) →
  (is_Some (distances !! n) ↔ n ∈ nodes g ∨ n = source) ∧
  (is_Some (paths !! n) ↔ n ∈ nodes g ∧ ∃ x, distances !! n = Some (Fin x)).
Proof.
  intros Hwf H.
  destruct (bellman_ford_ok_state g source fuel _ _ Hwf H)
    as (p & Hinv & _ & _ & [Hd _] & Hc).
  split; split.
  - apply Hd.
  - intros [Hn| ->]; [by apply (inv_dkeys _ _ _ Hinv)|].
    destruct (inv_source _ _ _ Hinv) as (x & Hx & _). by eexists.
  - intros [path Hp].
    by destruct (construct_paths_lookup _ _ _ _ _ _ _ Hc Hp) as (? & ? & _).
  - intros [Hn [x Hx]].
    destruct (construct_paths_present _ _ _ _ _ _ n x Hc Hx) as (path & Hp & _);
      [by left | by eexists].
Qed.

Lemma bellman_ford_result_keys_witness :
  let distances : gmap string dist :=
    list_to_map [("A", Fin 0); ("B", Fin 5); ("C", Inf)]%string in
  let paths : gmap string (list string) :=
    list_to_map [("A", ["A"]); ("B", ["A"; "B"])]%string in
  bellman_ford 3 scenario3 "A" = Ok (distances, paths) ∧
  (is_Some (distances !! "C") ↔ "C" ∈ nodes scenario3 ∨ "C" = "A") ∧
  (is_Some (paths !! "C") ↔
     "C" ∈ nodes scenario3 ∧ ∃ x, distances !! "C" = Some (Fin x)).
Proof.
  intros distances paths.
  assert (bellman_ford 3 scenario3 "A" = Ok (distances, paths)) as Hbf
    by (vm_compute; reflexivity).
  split; [done|].
  apply (bellman_ford_result_keys scenario3 "A" 3 distances paths "C"); [|done].
  by_compute.
Defined.





(** X4. A path returned by [bellman_ford] passes through no node twice,
    so it has at most [|V|] nodes. *)
Theorem bellman_ford_path_simple g source fuel distances paths dest path :
  wf_graph g → bellman_ford fuel g source = Ok (distances, paths) →
  paths !! dest = Some path →
  NoDup path ∧ (length path ≤ length (nodes g))%nat.
Proof.
  intros Hwf H Hp.
  destruct (bellman_ford_ok_state g source fuel _ _ Hwf H)
    as (p & Hinv & _ & Hac & _ & Hc).
  destruct (construct_paths_lookup _ _ _ _ _ _ _ Hc Hp) as (Hn & _ & Hl).
  pose proof (pred_path_NoDup p path dest Hac Hl) as Hnd.
  split; [done|]. apply submseteq_length, NoDup_submseteq; [done|].
  by apply (pred_path_nodes g source (distances, p) path dest).
Qed.

Lemma bellman_ford_path_simple_witness :
  let distances : gmap string dist :=
    list_to_map [("A", Fin 0); ("B", Fin 2); ("C", Fin 1)]%string in
  let paths : gmap string (list string) :=
    list_to_map [("A", ["A"]); ("B", ["A"; "C"; "B"]); ("C", ["A"; "C"])]%string in
  bellman_ford 3 scenario1 "A" = Ok (distances, paths) ∧
  paths !! "B" = Some ["A"; "C"; "B"]%string ∧
  NoDup ["A"; "C"; "B"]%string ∧
  (length ["A"; "C"; "B"]%string ≤ length (nodes scenario1))%nat.
Proof.
  intros distances paths.
  assert (bellman_ford 3 scenario1 "A" = Ok (distances, paths)) as Hbf
    by (vm_compute; reflexivity).
  assert (paths !! "B" = Some ["A"; "C"; "B"]%string) as Hp
    by (vm_compute; reflexivity).
  split; [done|]. split; [done|].
  apply (bellman_ford_path_simple scenario1 "A" 3 distances paths "B"); [|done|done].
  by_compute.
Defined.

(** X5. The returned paths fit together as a tree: the path to a
    destination other than the source, without its last node, is the
    returned path to the node that comes just before the destination. *)
Theorem bellman_ford_path_prefix g source fuel distances paths dest path :
  wf_graph g → bellman_ford fuel g source = Ok (distances, paths) →
  paths !! dest = Some path → dest ≠ source →
  ∃ b rest, path = rest ++ [dest] ∧ last rest = Some b ∧
            paths !! b = Some rest.
Proof.
  intros Hwf H Hp Hne.
  destruct (bellman_ford_ok_state g source fuel _ _ Hwf H)
    as (p & Hinv & _ & _ & _ & Hc).
  destruct (construct_paths_lookup _ _ _ _ _ _ _ Hc Hp) as (_ & [x Hx] & Hl).
  inversion Hl as [c Hc0|rest b c Hc0 Hrest]; subst.
  - destruct (inv_root _ _ _ Hinv _ Hc0) as [Hinf|[-> _]]; [|done].
    simpl in Hinf. congruence.
  - destruct (inv_pred _ _ _ Hinv _ _ Hc0) as (w & xb & _ & He & Hb & _).
    simpl in Hb.
    destruct (pred_path_shape g source (distances, p) rest b xb Hinv Hrest Hb)
      as (_ & Hlast & _).
    exists b, rest. split_and!; [done | done |].
    destruct (construct_paths_present _ _ _ _ _ _ b xb Hc Hb) as (pb & Hpb & Hw).
    { left. by eapply edge_source_node. }
    apply walk_predecessors_path in Hw as (lb & Hlb & ->).
    rewrite app_nil_r in Hpb. by rewrite (pred_path_unique p rest lb b).
Qed.

Lemma bellman_ford_path_prefix_witness :
  let distances : gmap string dist :=
    list_to_map [("A", Fin 0); ("B", Fin 2); ("C", Fin 1)]%string in
  let paths : gmap string (list string) :=
    list_to_map [("A", ["A"]); ("B", ["A"; "C"; "B"]); ("C", ["A"; "C"])]%string in
  bellman_ford 3 scenario1 "A" = Ok (distances, paths) ∧
  paths !! "B" = Some ["A"; "C"; "B"]%string ∧
  ∃ b rest, ["A"; "C"; "B"]%string = rest ++ ["B"] ∧ last rest = Some b ∧
            paths !! b = Some rest.
Proof.
  intros distances paths.
  assert (bellman_ford 3 scenario1 "A" = Ok (distances, paths)) as Hbf
    by (vm_compute; reflexivity).
  assert (paths !! "B" = Some ["A"; "C"; "B"]%string) as Hp
    by (vm_compute; reflexivity).
  split; [done|]. split; [done|].
  apply (bellman_ford_path_prefix scenario1 "A" 3 distances paths "B");
    [|done|done|done].
  by_compute.
Defined.

(** X6. On a well-formed graph no subscript of [bellman_ford] misses its
    key: whatever the source, the only exception the call can raise is the
    [ValueError] of the negative-cycle check. *)
Theorem bellman_ford_only_value_error g source fuel e :
  wf_graph g → bellman_ford fuel g source = Raise e → e = ValueError.
Proof.
  intros Hwf. unfold bellman_ford.
  destruct (rounds_total g source Hwf) as (st & -> & Hinv & _). simpl.
  destruct (check_cases g Hwf st.1 (inv_dkeys _ _ _ Hinv)) as [[-> _]|[-> _]]; simpl.
  - intros H.
    pose proof (construct_paths_no_raise g source st fuel (nodes g) ∅ e Hinv) as Hn.
    destruct (for_each (construct_path fuel st.1 st.2) (nodes g) ∅); simpl in H;
      [done | | done].
    destruct Hn; [done | congruence].
  - by intros [= <-].
Qed.

Lemma bellman_ford_only_value_error_witness :
  bellman_ford 3 scenario2 "A" = Raise ValueError ∧ ValueError = ValueError.
Proof.
  assert (bellman_ford 3 scenario2 "A" = Raise ValueError) as H
    by (vm_compute; reflexivity).
  split; [done|].
  apply (bellman_ford_only_value_error scenario2 "A" 3 ValueError); [|done].
  by_compute.
Defined.




(** ** Properties of [run_bellman_ford] and [draw_graph] *)











(** X11. [run_bellman_ford] shows the "No path" warning only for a
    destination that is neither a node of the graph nor the source: for a
    destination picked among the nodes the branch is never taken. *)
Theorem run_bellman_ford_no_path g source destination fuel :
  wf_graph g →
  run_bellman_ford fuel (Some g) source destination = Ok NoPath →
  (destination ∉ nodes g) ∧ destination ≠ source.
Proof.
  intros Hwf. unfold run_bellman_ford. repeat (case_decide; [done|]).
  destruct (run_query fuel g source destination) as [d| |] eqn:Hq; [|done|done].
  intros [= ->]. unfold run_query in Hq.
  apply obind_ok in Hq as ([distances paths] & Hbf & Hq).
  destruct (bellman_ford_ok_state g source fuel _ _ Hwf Hbf)
    as (p & Hinv & _ & _ & _ & _).
  assert (¬ is_Some (distances !! destination)) as Hnone.
  { intros Hsome. rewrite decide_True in Hq by done.
    apply obind_ok in Hq as (d & _ & Hq). by apply obind_ok in Hq as (l & _ & Hq). }
  split.
  - intros Hd. apply Hnone. by apply (inv_dkeys _ _ _ Hinv).
  - intros ->. apply Hnone. destruct (inv_source _ _ _ Hinv) as (x & Hx & _).
    by eexists.
Qed.

Lemma run_bellman_ford_no_path_witness :
  run_bellman_ford 3 (Some scenario3) "A" "Z" = Ok NoPath ∧
  ("Z" ∉ nodes scenario3) ∧ "Z" ≠ "A".
Proof.
  assert (run_bellman_ford 3 (Some scenario3) "A" "Z" = Ok NoPath) as H
    by (vm_compute; reflexivity).
  split; [done|].
  apply (run_bellman_ford_no_path scenario3 "A" "Z" 3); [|done]. by_compute.
Defined.

(** X12. When [run_bellman_ford] shows results, the pairs that
    [draw_graph] highlights, [zip(shortest_path, shortest_path[1:])], are
    all joined by an edge of the graph, and there is one pair less than
    there are nodes on the path. *)
Theorem draw_graph_highlights_edges g source destination fuel d path :
  wf_graph g →
  run_bellman_ford fuel (Some g) source destination = Ok (Results d path) →
  (∀ x y, (x, y) ∈ shortest_path_edges path → ∃ w, (x, y, w) ∈ edges g) ∧
  length (shortest_path_edges path) = (length path - 1)%nat.
Proof.
  intros Hwf. unfold run_bellman_ford. repeat (case_decide; [done|]).
  destruct (run_query fuel g source destination) as [dl| |] eqn:Hq; [|done|done].
  intros [= ->]. unfold run_query in Hq.
  apply obind_ok in Hq as ([distances paths] & Hbf & Hq).
  destruct (decide (is_Some (distances !! destination))) as [_|_]; [|done].
  apply obind_ok in Hq as (d' & _ & Hq).
  apply obind_ok in Hq as (l & Hl & Hq). injection Hq as -> ->.
  unfold getitem in Hl. destruct (paths !! destination) as [l'|] eqn:Hp; [|done].
  injection Hl as ->.
  destruct (bellman_ford_paths g source Hwf _ _ _ _ _ Hbf Hp)
    as (p & x & l & Hinv & _ & Hx & Hpp & ->).
  destruct (pred_path_shape g source (distances, p) l destination x Hinv Hpp Hx)
    as (_ & _ & Hconn).
  unfold shortest_path_edges. split.
  - intros a b Hab. apply list_elem_of_lookup in Hab as [k Hk].
    apply lookup_zip_with_Some in Hk as (a' & b' & [= <- <-] & Ha & Hb).
    rewrite lookup_tail in Hb. by apply (Hconn k).
  - rewrite length_zip_with. destruct l as [|a l]; [done|]. cbn [tail length]. lia.
Qed.

Lemma draw_graph_highlights_edges_witness :
  run_bellman_ford 3 (Some scenario4) "A" "C"
    = Ok (Results (Fin (-2)) ["A"; "B"; "C"]%string) ∧
  (∀ x y, (x, y) ∈ shortest_path_edges ["A"; "B"; "C"]%string →
          ∃ w, (x, y, w) ∈ edges scenario4) ∧
  length (shortest_path_edges ["A"; "B"; "C"]%string)
    = (length ["A"; "B"; "C"]%string - 1)%nat.
Proof.
  assert (run_bellman_ford 3 (Some scenario4) "A" "C"
    = Ok (Results (Fin (-2)) ["A"; "B"; "C"]%string)) as H
    by (vm_compute; reflexivity).
  split; [done|].
  apply (draw_graph_highlights_edges scenario4 "A" "C" 3 (Fin (-2))); [|done].
  by_compute.
Defined.

(** ** Properties of the loader *)

Lemma dict_get_app {V} k (d d' : list (string * V)) :
  dict_get k (d ++ d') =
    match dict_get k d with Some y => Some y | None => dict_get k d' end.
Proof.
  induction d as [|[a y] d IH]; csimpl; [done|]. by case_decide.
Qed.

Lemma dict_get_set {V} k k' (x : V) (d : list (string * V)) :
  dict_get k (dict_set k' x d) =
    if decide (k' = k) then Some x else dict_get k d.
Proof.
  induction d as [|[a y] d IH]; csimpl.
  - repeat case_decide; congruence.
  - destruct (decide (k' = a)) as [->|Hk']; csimpl; repeat case_decide; congruence.
Qed.

Lemma dict_get_add_node_cases k n g :
  dict_get k (add_node n g) =
    match dict_get k g with
    | Some y => Some y
    | None => if decide (k = n) then Some [] else None
    end.
Proof.
  unfold add_node. case_decide as Hn.
  - destruct (dict_get k g) eqn:Hk; [done|]. case_decide as Hkn; [|done].
    subst. apply dict_get_is_Some in Hn as [y Hy].
    fold (nodes g) in *. unfold nodes in *. congruence.
  - rewrite dict_get_app. csimpl. destruct (dict_get k g); [done|].
    by case_decide.
Qed.

(** Reading back the weight after [add_edge]. *)
Lemma edge_weight_add_edge a b x g u v :
  edge_weight (add_edge a b x g) u v =
    if decide ((a, b) = (u, v)) then Some x else edge_weight g u v.
Proof.
  unfold edge_weight, add_edge. rewrite dict_get_alter.
  rewrite !dict_get_add_node_cases.
  destruct (decide (a = u)) as [->|Hau].
  - destruct (dict_get u g) as [nbrs|] eqn:Hu; cbn [mbind option_bind fmap option_fmap option_map].
    + rewrite dict_get_set. repeat case_decide; congruence.
    + rewrite decide_True by done. cbn [mbind option_bind fmap option_fmap option_map]. rewrite dict_get_set.
      repeat case_decide; done || congruence.
  - rewrite (decide_False (P := (a, b) = (u, v))) by congruence.
    destruct (dict_get u g) as [nbrs|] eqn:Hu; cbn [mbind option_bind fmap option_fmap option_map]; [done|].
    rewrite (decide_False (P := u = a)) by done.
    by case_decide.
Qed.

Lemma edge_weight_read_graph rows u v :
  edge_weight (read_graph_from_excel rows) u v = last_weight rows u v.
Proof.
  induction rows as [|[[a b] x] rows IH] using rev_ind; [done|].
  rewrite read_graph_snoc, last_weight_snoc. cbn [add_row fst snd].
  by rewrite edge_weight_add_edge, IH.
Qed.

Lemma elem_of_dict {V} k (y : V) (d : list (string * V)) :
  NoDup d.*1 → (k, y) ∈ d ↔ dict_get k d = Some y.
Proof.
  induction d as [|[a z] d IH]; csimpl.
  - intros _. split; [by intros ?%elem_of_nil | done].
  - intros [Ha Hd]%NoDup_cons. rewrite elem_of_cons. case_decide as Hk.
    + subst a. split; [|intros [= ->]; by left].
      intros [[= ->]|Hin]; [done|]. destruct Ha.
      apply list_elem_of_fmap. by exists (k, y).
    + rewrite IH by done. split; [|by right]. intros [[= ? ?]|?]; done.
Qed.

Lemma elem_of_edges_weight g u v w :
  wf_graph g → (u, v, w) ∈ edges g ↔ edge_weight g u v = Some w.
Proof.
  intros [Hnd Hall]. rewrite elem_of_edges. unfold edge_weight.
  rewrite Forall_forall in Hall. split.
  - intros (nbrs & Hu & Hv). destruct (Hall _ Hu) as [Hn _].
    apply (elem_of_dict _ _ _ Hnd) in Hu. rewrite Hu. csimpl.
    by apply elem_of_dict.
  - destruct (dict_get u g) as [nbrs|] eqn:Hu; csimpl; [|done]. intros Hv.
    apply (elem_of_dict _ _ _ Hnd) in Hu. exists nbrs. split; [done|].
    destruct (Hall _ Hu) as [Hn _]. by apply elem_of_dict.
Qed.

Lemma nodes_add_node n g :
  nodes (add_node n g) =
    if decide (n ∈ nodes g) then nodes g else nodes g ++ [n].
Proof.
  unfold add_node. case_decide; [done|]. unfold nodes. by rewrite fmap_app.
Qed.

Lemma first_seen_snoc l a :
  first_seen (l ++ [a]) =
    if decide (a ∈ first_seen l) then first_seen l else first_seen l ++ [a].
Proof. unfold first_seen. by rewrite fold_left_app. Qed.

Lemma last_weight_is_Some rows u v :
  is_Some (last_weight rows u v) ↔ (u, v) ∈ rows.*1.
Proof.
  induction rows as [|[[a b] x] rows IH] using rev_ind.
  - split; [by intros [? ?] | by intros ?%elem_of_nil].
  - rewrite last_weight_snoc, fmap_app, elem_of_app. csimpl.
    rewrite list_elem_of_singleton. case_decide as Heq.
    + split; [intros _; right; congruence | by eexists].
    + rewrite IH. split; [by left|]. intros [?| ?]; [done | congruence].
Qed.

(** X13. Whatever the rows of the sheet, the graph that
    [read_graph_from_excel] builds is a well-formed [DiGraph]: no node and
    no successor is listed twice, and every successor is a node. *)
Theorem loader_graph_well_formed rows : wf_graph (read_graph_from_excel rows).
Proof. apply read_graph_wf. Qed.

(** X14. The nodes of the loaded graph, which [load_file] puts in the two
    dropdowns, are the endpoints of the rows in the order of their first
    appearance in the sheet, each listed once. *)
Theorem loader_node_order rows :
  nodes (read_graph_from_excel rows) = first_seen (endpoints rows).
Proof.
  induction rows as [|[[u v] w] rows IH] using rev_ind; [done|].
  rewrite read_graph_snoc. cbn [add_row]. unfold add_edge, nodes.
  rewrite dict_alter_keys. fold (nodes (add_node v (add_node u (read_graph_from_excel rows)))).
  rewrite !nodes_add_node, IH.
  unfold endpoints. rewrite flat_map_app. cbn [flat_map fst snd app].
  change ([u; v]) with ([u] ++ [v]). rewrite app_assoc, !first_seen_snoc.
  done.
Qed.

(** X15. The loaded graph has an edge from [u] to [v] of weight [w]
    exactly when [w] is the weight of the last row of the sheet that joins
    [u] to [v]. *)
Theorem loader_edges_last_weight rows u v w :
  (u, v, w) ∈ edges (read_graph_from_excel rows) ↔ last_weight rows u v = Some w.
Proof.
  rewrite (elem_of_edges_weight _ _ _ _ (read_graph_wf rows)).
  by rewrite edge_weight_read_graph.
Qed.

(** X16. The loader leaves no node isolated: every node of the loaded
    graph is the source or the target of one of its edges. *)
Theorem loader_no_isolated_node rows n :
  n ∈ nodes (read_graph_from_excel rows) →
  ∃ u v w, (u, v, w) ∈ edges (read_graph_from_excel rows) ∧ (n = u ∨ n = v).
Proof.
  intros Hn.
  assert (∃ u v, (u, v) ∈ rows.*1 ∧ (n = u ∨ n = v)) as (u & v & Huv & Hor).
  { revert Hn. induction rows as [|[[a b] x] rows IH] using rev_ind.
    - by intros ?%elem_of_nil.
    - rewrite read_graph_snoc. cbn [add_row]. rewrite elem_of_nodes_add_edge.
      intros Hcase.
      assert (n = a ∨ n = b ∨ ∃ u v, (u, v) ∈ rows.*1 ∧ (n = u ∨ n = v))
        as [->|[->|(u & v & Huv & Hor)]] by (destruct Hcase as [?|[?|?]]; auto).
      + exists a, b. rewrite fmap_app, elem_of_app. csimpl.
        rewrite list_elem_of_singleton. auto.
      + exists a, b. rewrite fmap_app, elem_of_app. csimpl.
        rewrite list_elem_of_singleton. auto.
      + exists u, v. rewrite fmap_app, elem_of_app. auto. }
  apply last_weight_is_Some in Huv as [w Hw].
  exists u, v, w. split; [|done].
  apply (elem_of_edges_weight _ _ _ _ (read_graph_wf rows)).
  by rewrite edge_weight_read_graph.
Qed.

Lemma loader_no_isolated_node_witness :
  ∃ u v w, (u, v, w) ∈ edges (read_graph_from_excel duplicate_rows) ∧
           ("B" = u ∨ "B" = v).
Proof.
  apply (loader_no_isolated_node duplicate_rows "B"). by_compute.
Defined.

(** ** Termination and independence of the order *)









